(** * stimulus-delegation: event delegation registry for Stimulus controllers

    A shallow embedding of the two implementations found in the repository:

    - the object mixin of release 1.0.0 ([src/stimulus-delegation.ts],
      [Object.assign(this, useDelegation)]), and
    - the function-based [useDelegation(controller)] of release 1.1.0.

    Both keep a [Map<string, EventListener>] keyed by
    [`${eventType}:${selector}`] and attach one closure per entry to the
    controller's root element.  The DOM (tree, [closest], [contains],
    [parentElement], listener lists) is the host platform; it is modelled
    here just far enough to run the closures. *)

From Stdlib Require Import String Ascii List.
From stdpp Require Import base gmap strings list fin_maps.

Local Open Scope string_scope.

(** ** The host platform: a DOM tree *)

Inductive NodeType :=
  | ELEMENT_NODE
  | TEXT_NODE
  | COMMENT_NODE
  | DOCUMENT_NODE
  | DOCUMENT_FRAGMENT_NODE.

#[global] Instance NodeType_eq_dec : EqDecision NodeType.
Proof. solve_decision. Defined.

(** A node carries what selectors usually look at; its children are ordered. *)
#[local] Set Warnings "-register-all".
Inductive Node :=
  mkNode { nodeType : NodeType;
           nodeName : string;
           classList : list string;
           childNodes : list Node }.

(** A node of a document is referred to by the child indices leading to it,
    innermost first: the head is the node's index among its parent's
    children, the tail refers to the parent, [[]] is the tree's root. *)
Definition NodeRef := list nat.

Fixpoint descend (n : Node) (path : list nat) : option Node :=
  match path with
  | [] => Some n
  | i :: rest =>
      match childNodes n !! i with
      | Some c => descend c rest
      | None => None
      end
  end.

Definition nodeAt (doc : Node) (r : NodeRef) : option Node := descend doc (rev r).

Definition isElement (doc : Node) (r : NodeRef) : bool :=
  match nodeAt doc r with
  | Some n => bool_decide (nodeType n = ELEMENT_NODE)
  | None => false
  end.

(** [node.parentElement]: the parent when it is an element, else null. *)
Definition parentElement (doc : Node) (r : NodeRef) : option NodeRef :=
  match r with
  | [] => None
  | _ :: p => if isElement doc p then Some p else None
  end.

(** [root.contains(other)]: [other] is [root] or one of its descendants. *)
Fixpoint contains (root other : NodeRef) : bool :=
  if bool_decide (root = other) then true
  else match other with
       | [] => false
       | _ :: p => contains root p
       end.

(** The inclusive ancestors of a node, nearest first. *)
Fixpoint inclusiveAncestors (r : NodeRef) : list NodeRef :=
  r :: match r with
       | [] => []
       | _ :: p => inclusiveAncestors p
       end.

(** Strict ancestors that are elements, nearest first. *)
Definition elementAncestors (doc : Node) (r : NodeRef) : list NodeRef :=
  List.filter (isElement doc) (tl (inclusiveAncestors r)).

(** DOM shape: only the tree's root (a document or a fragment) and elements
    have children. *)
Definition wellFormed (doc : Node) : Prop :=
  ∀ (i : nat) (p : NodeRef),
    is_Some (nodeAt doc (i :: p)) → p = [] ∨ isElement doc p = true.

(** The same shape as a check that runs: below the root, every node is an
    element or has no children. *)
Fixpoint leafOrElement (n : Node) : bool :=
  (bool_decide (nodeType n = ELEMENT_NODE) ||
   match childNodes n with [] => true | _ => false end)
  && forallb leafOrElement (childNodes n).

Definition wellFormedb (doc : Node) : bool :=
  forallb leafOrElement (childNodes doc).

Record Event :=
  mkEvent { ev_id : nat;
            ev_type : string;
            ev_target : option NodeRef;
            ev_bubbles : bool }.

#[global] Instance Event_eq_dec : EqDecision Event.
Proof. solve_decision. Defined.

Inductive JsError := TypeError.

#[global] Instance JsError_eq_dec : EqDecision JsError.
Proof. solve_decision. Defined.

(** ** The registry *)

Inductive Impl := ObjectMixin | FunctionBased.

#[global] Instance Impl_eq_dec : EqDecision Impl.
Proof. solve_decision. Defined.

(** User handlers are opaque functions; only their identity matters here.
    What a handler does is its caller's business: it is taken not to call
    back into the registry nor to stop the event while it runs. *)
Definition Handler := nat.

(** One [handler.call(this, event, target)]. *)
Record Call :=
  mkCall { call_handler : Handler;
           call_this : nat;
           call_event : Event;
           call_target : NodeRef }.

#[global] Instance Call_eq_dec : EqDecision Call.
Proof. solve_decision. Defined.

(** What one run of a physical listener does. *)
Inductive Outcome :=
  | NoEffect
  | Invoked (c : Call)
  | Threw (e : JsError).

#[global] Instance Outcome_eq_dec : EqDecision Outcome.
Proof. solve_decision. Defined.

(** The closure [delegatedHandler]: a fresh function object per [delegate]
    call ([l_id] is its identity) that captures [selector] and [handler];
    [l_impl] records which source file created it. *)
Record Listener :=
  mkListener { l_id : nat;
               l_impl : Impl;
               l_selector : string;
               l_handler : Handler }.

#[global] Instance Listener_eq_dec : EqDecision Listener.
Proof. solve_decision. Defined.

(** The controller: its identity ([this]), [this.element], the optional
    [this.delegatedEvents] map, the event listener list of [this.element],
    and the allocator of function identities. *)
Record State :=
  mkState { this_id : nat;
            element : NodeRef;
            delegatedEvents : option (gmap string Listener);
            element_listeners : list (string * Listener);
            next_closure : nat }.

Inductive Completion (A : Type) :=
  | Normal (a : A)
  | Abrupt (e : JsError).
Arguments Normal {A} a.
Arguments Abrupt {A} e.

(** [`${eventType}:${selector}`] *)
Definition key (eventType selector : string) : string :=
  eventType +:+ ":" +:+ selector.

(** [s.split(sep)] for a one-character separator; never empty. *)
Fixpoint split (sep : ascii) (s : string) : list string :=
  match s with
  | EmptyString => [EmptyString]
  | String c r =>
      if Ascii.eqb c sep then EmptyString :: split sep r
      else match split sep r with
           | x :: xs => String c x :: xs
           | [] => [String c EmptyString]
           end
  end.

(** [const [eventType] = key.split(':')] *)
Definition eventTypeOfKey (k : string) : string :=
  hd EmptyString (split ":"%char k).

(** No [':'] occurs in the string. *)
Fixpoint colonFree (s : string) : bool :=
  match s with
  | EmptyString => true
  | String c r => negb (Ascii.eqb c ":"%char) && colonFree r
  end.

(** [EventTarget.addEventListener]: appended unless the same callback is
    already listed for the type. *)
Definition addEventListener (ty : string) (cb : Listener)
    (ls : list (string * Listener)) : list (string * Listener) :=
  if bool_decide ((ty, cb) ∈ ls) then ls else ls ++ [(ty, cb)].

(** [EventTarget.removeEventListener]: the entry with this type and callback
    goes (there is at most one, by [addEventListener]). *)
Definition removeEventListener (ty : string) (cb : Listener)
    (ls : list (string * Listener)) : list (string * Listener) :=
  filter (λ x, x ≠ (ty, cb)) ls.

Section Registry.

(** The selector engine, [element.matches(selector)] in a document. *)
Variable matches : Node → NodeRef → string → bool.

(** [element.closest(selector)]: nearest inclusive ancestor that is an
    element and matches. *)
Fixpoint closest (doc : Node) (selector : string) (r : NodeRef) : option NodeRef :=
  if isElement doc r && matches doc r selector then Some r
  else match r with
       | [] => None
       | _ :: p => closest doc selector p
       end.

(** The tail of both closures:
    [if (target && this.element.contains(target)) handler.call(this, event, target)] *)
Definition callIfContained (st : State) (handler : Handler) (ev : Event)
    (target : option NodeRef) : Outcome :=
  match target with
  | Some t =>
      if contains (element st) t
      then Invoked (mkCall handler (this_id st) ev t)
      else NoEffect
  | None => NoEffect
  end.

(** src/stimulus-delegation.ts, lines 24-30:
    [(event.target as Element)?.closest(selector)].  The optional chain
    guards a null target only; a node that is not an element has no
    [closest] method and the call throws. *)
Definition delegatedHandler_mixin (doc : Node) (st : State)
    (selector : string) (handler : Handler) (ev : Event) : Outcome :=
  match ev_target ev with
  | None => callIfContained st handler ev None
  | Some t =>
      if isElement doc t
      then callIfContained st handler ev (closest doc selector t)
      else Threw TypeError
  end.

(** The closure of the function-based [useDelegation], lines 39-50: a null
    target returns early, a node that is not an element is replaced by its
    [parentElement]. *)
Definition delegatedHandler_function (doc : Node) (st : State)
    (selector : string) (handler : Handler) (ev : Event) : Outcome :=
  match ev_target ev with
  | None => NoEffect
  | Some eventTarget =>
      let element :=
        if isElement doc eventTarget then Some eventTarget
        else parentElement doc eventTarget in
      let target :=
        match element with
        | Some el => closest doc selector el
        | None => None
        end in
      callIfContained st handler ev target
  end.

Definition delegatedHandler (doc : Node) (st : State) (l : Listener) (ev : Event) : Outcome :=
  match l_impl l with
  | ObjectMixin => delegatedHandler_mixin doc st (l_selector l) (l_handler l) ev
  | FunctionBased => delegatedHandler_function doc st (l_selector l) (l_handler l) ev
  end.

(** The value bound to [target] in either closure, before the containment
    check: the matched element, null, or an exception on the way. *)
Definition matchedTarget (doc : Node) (l : Listener) (ev : Event)
    : Completion (option NodeRef) :=
  match ev_target ev with
  | None => Normal None
  | Some t =>
      if isElement doc t then Normal (closest doc (l_selector l) t)
      else match l_impl l with
           | ObjectMixin => Abrupt TypeError
           | FunctionBased =>
               Normal (match parentElement doc t with
                       | Some el => closest doc (l_selector l) el
                       | None => None
                       end)
           end
  end.

(** *** The three operations

    [delegate], [undelegate] and [undelegateAll] have the same body in both
    files; the object mixin creates the map on first use and returns early
    when it is absent, the function-based version relies on the map that
    [useDelegation] installed. *)

Definition delegate (impl : Impl) (eventType selector : string)
    (handler : Handler) (st : State) : Completion State :=
  let body (m : gmap string Listener) :=
    let k := key eventType selector in
    (* Remove existing listener if present *)
    let ls :=
      match m !! k with
      | Some existingHandler =>
          removeEventListener eventType existingHandler (element_listeners st)
      | None => element_listeners st
      end in
    (* Create delegated event handler *)
    let delegatedHandler :=
      mkListener (next_closure st) impl selector handler in
    (* Store and attach listener *)
    Normal (mkState (this_id st) (element st)
              (Some (<[k := delegatedHandler]> m))
              (addEventListener eventType delegatedHandler ls)
              (S (next_closure st))) in
  match impl, delegatedEvents st with
  | _, Some m => body m
  | ObjectMixin, None => body ∅
  | FunctionBased, None => Abrupt TypeError
  end.

Definition undelegate (impl : Impl) (eventType selector : string)
    (st : State) : Completion State :=
  match impl, delegatedEvents st with
  | _, Some m =>
      let k := key eventType selector in
      match m !! k with
      | Some handler =>
          Normal (mkState (this_id st) (element st)
                    (Some (delete k m))
                    (removeEventListener eventType handler (element_listeners st))
                    (next_closure st))
      | None => Normal st
      end
  | ObjectMixin, None => Normal st
  | FunctionBased, None => Abrupt TypeError
  end.

(** The loop of [undelegateAll].  The map is iterated in some order; the
    removals commute (see [detachAll_elem_of]). *)
Definition detachAll (entries : list (string * Listener))
    (ls : list (string * Listener)) : list (string * Listener) :=
  foldl (λ acc '(k, handler), removeEventListener (eventTypeOfKey k) handler acc)
        ls entries.

Definition undelegateAll (impl : Impl) (st : State) : Completion State :=
  match impl, delegatedEvents st with
  | _, Some m =>
      Normal (mkState (this_id st) (element st)
                (Some ∅)
                (detachAll (map_to_list m) (element_listeners st))
                (next_closure st))
  | ObjectMixin, None => Normal st
  | FunctionBased, None => Abrupt TypeError
  end.

(** The controller right after [Object.assign(this, useDelegation)]
    (no map yet) or after [useDelegation(this)] (an empty map; the wrapper
    it puts around [disconnect] is a call of [undelegateAll]). *)
Definition useDelegation (impl : Impl) (this : nat) (root : NodeRef) : State :=
  mkState this root
    (match impl with ObjectMixin => None | FunctionBased => Some ∅ end)
    [] 0.

(** *** Event delivery by the platform *)

(** An event dispatched at [node] reaches the listeners of the root element
    when [node] is the root, or lies below it and the event bubbles. *)
Definition reachesRoot (st : State) (node : NodeRef) (ev : Event) : bool :=
  bool_decide (node = element st) || (ev_bubbles ev && contains (element st) node).

(** The physical listeners run for an event, in attachment order. *)
Definition invoked (st : State) (node : NodeRef) (ev : Event) : list Listener :=
  if reachesRoot st node ev
  then map snd (filter (λ x, x.1 = ev_type ev) (element_listeners st))
  else [].

Definition dispatchEvent (doc : Node) (st : State) (node : NodeRef)
    (ev : Event) : list Outcome :=
  map (λ l, delegatedHandler doc st l ev) (invoked st node ev).

End Registry.

(** The selector the key was built from is the one the closure captured;
    a listener attached for a type is filed under this key. *)
Definition keyOf (x : string * Listener) : string := key x.1 (l_selector x.2).

(** *** Sequences of operations *)

Inductive Op :=
  | Delegate (eventType selector : string) (handler : Handler)
  | Undelegate (eventType selector : string)
  | UndelegateAll.

Definition step (impl : Impl) (op : Op) (st : State) : Completion State :=
  match op with
  | Delegate e s h => delegate impl e s h st
  | Undelegate e s => undelegate impl e s st
  | UndelegateAll => undelegateAll impl st
  end.

Fixpoint run (impl : Impl) (ops : list Op) (st : State) : Completion State :=
  match ops with
  | [] => Normal st
  | op :: rest =>
      match step impl op st with
      | Normal st' => run impl rest st'
      | Abrupt e => Abrupt e
      end
  end.

Definition opEventType (op : Op) : option string :=
  match op with
  | Delegate e _ _ => Some e
  | Undelegate e _ => Some e
  | UndelegateAll => None
  end.

(** The map read the way both files read it: absent counts as empty. *)
Definition registry (st : State) : gmap string Listener :=
  default ∅ (delegatedEvents st).

(** The [disconnect] that the function-based [useDelegation] puts in place
    of the controller's own (lines 17-22): [undelegateAll()] first, then the
    original method, which belongs to the host and is taken here as a
    function of the controller. *)
Definition disconnect (originalDisconnect : State → Completion State)
    (st : State) : Completion State :=
  match undelegateAll FunctionBased st with
  | Normal st' => originalDisconnect st'
  | Abrupt e => Abrupt e
  end.

(** ** Reachable controllers and their invariants *)

(** The operations only fail on a function-based controller whose map is
    missing, which [useDelegation] rules out. *)
Definition hasMap (impl : Impl) (st : State) : Prop :=
  impl = FunctionBased → is_Some (delegatedEvents st).

Inductive Reachable (impl : Impl) : State → Prop :=
  | reach_init (this : nat) (root : NodeRef) :
      Reachable impl (useDelegation impl this root)
  | reach_step (st st' : State) (op : Op) :
      Reachable impl st → step impl op st = Normal st' → Reachable impl st'.

(** Closure identities handed out so far are below the allocator, a
    closure is stored under one key only, and the listener list has no
    duplicates. *)
Record Sound (impl : Impl) (st : State) : Prop :=
  mkSound { sound_map : hasMap impl st;
            sound_attached : ∀ x, x ∈ element_listeners st →
                                  (l_id x.2 < next_closure st)%nat;
            sound_stored : ∀ k l, registry st !! k = Some l →
                                  (l_id l < next_closure st)%nat;
            sound_inj : ∀ k1 k2 l, registry st !! k1 = Some l →
                                   registry st !! k2 = Some l → k1 = k2;
            sound_nodup : NoDup (element_listeners st) }.

(** An allocated closure that is attached for certain event types only;
    [delegate] attaches new closures only, so this is stable. *)
Definition attachedOnlyFor (allowed : string → Prop) (l : Listener)
    (st : State) : Prop :=
  (l_id l < next_closure st)%nat ∧
  ∀ ty, (ty, l) ∈ element_listeners st → allowed ty.

Definition detached (l : Listener) (st : State) : Prop :=
  attachedOnlyFor (λ _, False) l st.

(** The closure filed under a key is attached for the event type. *)
Definition stillAttached (eventType k : string) (l : Listener)
    (st : State) : Prop :=
  registry st !! k = Some l → (eventType, l) ∈ element_listeners st.

(** *** The registry mirrors the listener list *)

Definition colonFreeOp (op : Op) : bool :=
  match opEventType op with
  | Some e => colonFree e
  | None => true
  end.

(** Every attached closure is the registry's entry under the key of its
    type and selector, and every entry is attached for the type its key
    starts with. *)
Record Tight (st : State) : Prop :=
  mkTight { tight_attached : ∀ x, x ∈ element_listeners st →
              colonFree x.1 = true ∧ registry st !! keyOf x = Some x.2;
            tight_stored : ∀ k l, registry st !! k = Some l →
              ∃ ty, colonFree ty = true ∧ k = key ty (l_selector l) ∧
                    (ty, l) ∈ element_listeners st }.

(** *** The two versions side by side

    The closure a function-based [delegate] makes where the object mixin
    makes [l]: same identity, selector and handler. *)
Definition retag (l : Listener) : Listener :=
  mkListener (l_id l) FunctionBased (l_selector l) (l_handler l).

Definition retagEntry (x : string * Listener) : string * Listener :=
  (x.1, retag x.2).

(** A controller of the object mixin and one of the function-based version
    that went through the same operations. *)
Record Mirrors (sm sf : State) : Prop :=
  mkMirrors { mirrors_this : this_id sf = this_id sm;
              mirrors_element : element sf = element sm;
              mirrors_next : next_closure sf = next_closure sm;
              mirrors_map : is_Some (delegatedEvents sf);
              mirrors_registry : registry sf = retag <$> registry sm;
              mirrors_listeners :
                element_listeners sf = map retagEntry (element_listeners sm);
              mirrors_attached : ∀ x, x ∈ element_listeners sm →
                                      l_impl x.2 = ObjectMixin;
              mirrors_stored : ∀ k l, registry sm !! k = Some l →
                                      l_impl l = ObjectMixin }.

(** *** Counting physical listeners *)

(** The calls a dispatch makes to one handler, in order. *)
Fixpoint callsOf (h : Handler) (outs : list Outcome) : list Call :=
  match outs with
  | [] => []
  | Invoked c :: rest =>
      if bool_decide (call_handler c = h) then c :: callsOf h rest
      else callsOf h rest
  | _ :: rest => callsOf h rest
  end.

(** The handler an operation registers, if any. *)
Definition opHandler (op : Op) : option Handler :=
  match op with
  | Delegate _ _ h => Some h
  | _ => None
  end.

Definition listenersFor (ty : string) (st : State) : list (string * Listener) :=
  filter (λ x, x.1 = ty) (element_listeners st).

Definition listenersForPair (ty sel : string) (st : State)
    : list (string * Listener) :=
  filter (λ x, x.1 = ty ∧ l_selector x.2 = sel) (element_listeners st).

(** The entries of the registry whose key starts with the event type. *)
Definition entriesFor (ty : string) (st : State) : list (string * Listener) :=
  filter (λ kv, eventTypeOfKey kv.1 = ty) (map_to_list (registry st)).

(** "At most one physical listener per event type". *)
Definition onePerEventType (st : State) : Prop :=
  ∀ ty, (length (listenersFor ty st) ≤ 1)%nat.

(** ** A concrete page, after the fixture of the unit tests

    [document > html > body > (div (the controller's root), button.btn)];
    the root holds two buttons, a form with two inputs, and a nested span. *)

Definition text (s : string) : Node := mkNode TEXT_NODE s [] [].
Definition el (name : string) (classes : list string) (children : list Node) : Node :=
  mkNode ELEMENT_NODE name classes children.

Definition page : Node :=
  mkNode DOCUMENT_NODE "#document" []
    [ el "html" []
        [ el "body" ["card"]
            [ el "div" []
                [ el "button" ["btn"] [text "Save"];
                  el "button" ["btn"; "secondary"] [text "Cancel"];
                  el "form" [] [el "input" [] []; el "input" [] []];
                  el "div" ["nested"] [el "span" ["clickable"] [text "Nested clickable"]] ];
              el "button" ["btn"] [text "Outside"] ] ] ].

Definition rootRef : NodeRef := [0; 0; 0].
Definition saveBtn : NodeRef := 0 :: rootRef.
Definition saveText : NodeRef := 0 :: saveBtn.
Definition firstInput : NodeRef := 0 :: 2 :: rootRef.
Definition nestedDiv : NodeRef := 3 :: rootRef.
Definition nestedSpan : NodeRef := 0 :: nestedDiv.
Definition externalBtn : NodeRef := [1; 0; 0].
Definition bodyRef : NodeRef := [0; 0].

(** A small selector engine for the examples: [.name] is a class selector,
    anything else a type selector. *)
Definition simpleMatches (doc : Node) (r : NodeRef) (selector : string) : bool :=
  match nodeAt doc r with
  | Some n =>
      match selector with
      | String "."%char cls => bool_decide (cls ∈ classList n)
      | _ => bool_decide (nodeName n = selector)
      end
  | None => false
  end.

Definition click (id : nat) (target : option NodeRef) : Event :=
  mkEvent id "click" target true.

Definition ctrl (impl : Impl) : State := useDelegation impl 7 rootRef.

(** The controller after some operations on the fresh one. *)
Definition ctrlAfter (impl : Impl) (ops : list Op) : State :=
  match run impl ops (ctrl impl) with
  | Normal st => st
  | Abrupt _ => ctrl impl
  end.

(** ** Properties of the DOM model *)

Section DomFacts.

Lemma contains_refl (r : NodeRef) : contains r r = true.
Proof.
  destruct r as [|i p]; [done|].
  cbn [contains]. by rewrite bool_decide_eq_true_2.
Qed.

Lemma contains_suffix (root other : NodeRef) :
  contains root other = true ↔ root `suffix_of` other.
Proof.
  induction other as [|i p IH]; simpl.
  - case_bool_decide as E; split; intros H; try done.
    + subst. done.
    + apply suffix_nil_inv in H. congruence.
  - case_bool_decide as E.
    + subst. split; done.
    + rewrite IH. split; intros H.
      * by apply suffix_cons_r.
      * destruct H as [[|x k] Hk]; simpl in Hk; [congruence|].
        injection Hk as _ ->. by exists k.
Qed.

Lemma contains_trans (a b c : NodeRef) :
  contains a b = true → contains b c = true → contains a c = true.
Proof. rewrite !contains_suffix. intros. by etrans. Qed.

Lemma contains_false_up (root a o : NodeRef) :
  contains root o = false → contains a o = true → contains root a = false.
Proof.
  intros Ho Hao. destruct (contains root a) eqn:E; [|done].
  rewrite (contains_trans _ _ _ E Hao) in Ho. done.
Qed.

Lemma elem_of_inclusiveAncestors (a r : NodeRef) :
  a ∈ inclusiveAncestors r ↔ contains a r = true.
Proof.
  induction r as [|i p IH]; simpl.
  - rewrite list_elem_of_singleton. case_bool_decide; split; intros; done.
  - rewrite elem_of_cons, IH. case_bool_decide as E; split; intros H; auto.
    by destruct H.
Qed.

(** Two inclusive ancestors of one node lie on one chain. *)
Lemma ancestors_chain (a b o : NodeRef) :
  contains a o = true → contains b o = true →
  contains a b = true ∨ contains b a = true.
Proof.
  rewrite !contains_suffix. intros [ka ->] [kb Hb].
  revert kb Hb. induction ka as [|x ka IH]; intros kb Hb; simpl in *.
  - right. by exists kb.
  - destruct kb as [|y kb]; simpl in *.
    + left. subst b. by exists (x :: ka).
    + injection Hb as -> Hb. by apply (IH kb).
Qed.

Lemma descend_app (n : Node) (q1 q2 : list nat) :
  descend n (q1 ++ q2) = descend n q1 ≫= λ m, descend m q2.
Proof.
  revert n. induction q1 as [|i q1 IH]; intros n; simpl; [done|].
  destruct (childNodes n !! i); [apply IH|done].
Qed.

Lemma descend_leafOrElement (doc n : Node) (q : list nat) :
  forallb leafOrElement (childNodes doc) = true →
  q ≠ [] → descend doc q = Some n → leafOrElement n = true.
Proof.
  revert doc. induction q as [|i q IH]; intros doc Hall Hq; [done|]. simpl.
  destruct (childNodes doc !! i) as [c|] eqn:Ec; [|done].
  assert (leafOrElement c = true) as Hc.
  { rewrite forallb_forall in Hall. apply Hall.
    apply list_elem_of_In, list_elem_of_lookup. eauto. }
  destruct q as [|j q]; [by intros [= <-]|].
  apply IH; [|done].
  destruct c as [ty name cls ch]. simpl in Hc.
  by apply andb_true_iff in Hc as [_ ?].
Qed.

Lemma wellFormedb_wellFormed (doc : Node) :
  wellFormedb doc = true → wellFormed doc.
Proof.
  intros Hwf i p [c Hc]. unfold nodeAt in Hc. simpl in Hc.
  rewrite descend_app in Hc.
  destruct (descend doc (rev p)) as [n|] eqn:En; [|done]. simpl in Hc.
  destruct (decide (p = [])) as [->|Hp]; [by left|right].
  assert (rev p ≠ []) as Hrev.
  { intros H. apply Hp. by rewrite <- (rev_involutive p), H. }
  pose proof (descend_leafOrElement doc n (rev p) Hwf Hrev En) as Hn.
  unfold isElement, nodeAt. rewrite En.
  destruct n as [ty name cls ch]. simpl in *.
  apply andb_true_iff in Hn as [Hn _]. apply orb_true_iff in Hn as [Hn|Hn].
  - done.
  - destruct ch; [|done]. by rewrite lookup_nil in Hc.
Qed.

Lemma isElement_nodeAt (doc : Node) (r : NodeRef) :
  isElement doc r = true → is_Some (nodeAt doc r).
Proof. unfold isElement. destruct (nodeAt doc r); [eauto|done]. Qed.

(** In a well-formed tree the parent element of a node that has one is its
    nearest element ancestor, and a node without a parent element has no
    element ancestor at all. *)
Lemma parentElement_nearest (doc : Node) (r : NodeRef) :
  wellFormed doc → is_Some (nodeAt doc r) →
  parentElement doc r = head (elementAncestors doc r).
Proof.
  intros Hwf Hr. destruct r as [|i p]; [done|].
  unfold elementAncestors. simpl.
  destruct (Hwf i p Hr) as [->|Hp].
  - simpl. by destruct (isElement doc []).
  - rewrite Hp. destruct p; simpl; by rewrite Hp.
Qed.

End DomFacts.

(** ** Properties of the closures *)

Section ClosureFacts.

Variable matches : Node → NodeRef → string → bool.
Variable doc : Node.

Abbreviation closest := (closest matches doc).

Lemma closest_self (sel : string) (o : NodeRef) :
  isElement doc o = true → matches doc o sel = true → closest sel o = Some o.
Proof. intros He Hm. destruct o; simpl; by rewrite He, Hm. Qed.

Lemma closest_skip (sel : string) (i : nat) (p : NodeRef) :
  isElement doc (i :: p) = false → closest sel (i :: p) = closest sel p.
Proof. intros He. simpl. by rewrite He. Qed.

Lemma closest_Some_inv (sel : string) (r t : NodeRef) :
  closest sel r = Some t →
  contains t r = true ∧ isElement doc t = true ∧ matches doc t sel = true.
Proof.
  induction r as [|i p IH]; simpl.
  - destruct (isElement doc [] && matches doc [] sel) eqn:E; [|done].
    intros [= <-]. by apply andb_true_iff in E as [? ?].
  - destruct (isElement doc (i :: p) && matches doc (i :: p) sel) eqn:E.
    + intros [= <-]. apply andb_true_iff in E as [? ?].
      by rewrite bool_decide_eq_true_2.
    + intros H. destruct (IH H) as (Hc & ? & ?). split; [|done].
      case_bool_decide; done.
Qed.

(** [closest] returns the nearest candidate: every matching element among
    the inclusive ancestors of [r] is an inclusive ancestor of the result. *)
Lemma closest_nearest (sel : string) (r t a : NodeRef) :
  closest sel r = Some t →
  contains a r = true → isElement doc a = true → matches doc a sel = true →
  contains a t = true.
Proof.
  induction r as [|i p IH]; simpl.
  - case_bool_decide as Ea; [|done]. subst a. intros H _ He Hm.
    rewrite He, Hm in H. by injection H as <-.
  - case_bool_decide as Ea.
    + subst a. intros H _ He Hm. rewrite He, Hm in H. injection H as <-.
      apply contains_refl.
    + destruct (isElement doc (i :: p) && matches doc (i :: p) sel).
      * intros [= <-] Hc _ _. cbn [contains]. by rewrite bool_decide_eq_false_2.
      * auto.
Qed.

Lemma closest_exists (sel : string) (r a : NodeRef) :
  contains a r = true → isElement doc a = true → matches doc a sel = true →
  is_Some (closest sel r).
Proof.
  induction r as [|i p IH]; simpl.
  - case_bool_decide as Ea; [|done]. subst a. intros _ -> ->. eauto.
  - case_bool_decide as Ea.
    + subst a. intros _ -> ->. eauto.
    + destruct (isElement doc (i :: p) && matches doc (i :: p) sel); eauto.
Qed.

Lemma closest_None (sel : string) (r : NodeRef) :
  closest sel r = None ↔
  ∀ a, contains a r = true → isElement doc a && matches doc a sel = false.
Proof.
  split.
  - intros Hn a Hc. destruct (isElement doc a) eqn:He; [|done].
    destruct (matches doc a sel) eqn:Hm; [|done].
    destruct (closest_exists sel r a Hc He Hm) as [t Ht]. congruence.
  - intros H. destruct (closest sel r) as [t|] eqn:E; [|done].
    apply closest_Some_inv in E as (Hc & He & Hm).
    specialize (H t Hc). by rewrite He, Hm in H.
Qed.

(** A match found from inside the root lies inside the root as soon as some
    candidate does. *)
Lemma closest_within_root (sel : string) (root o a : NodeRef) :
  contains a o = true → contains root a = true →
  isElement doc a = true → matches doc a sel = true →
  ∃ t, closest sel o = Some t ∧ contains root t = true.
Proof.
  intros Hao Hra He Hm.
  destruct (closest_exists sel o a Hao He Hm) as [t Ht].
  exists t. split; [done|].
  eapply contains_trans; [exact Hra|].
  by eapply closest_nearest.
Qed.

(** A match found from outside the root lies outside the root. *)
Lemma closest_outside_root (sel : string) (root o t : NodeRef) :
  contains root o = false → closest sel o = Some t → contains root t = false.
Proof.
  intros Ho Ht. apply closest_Some_inv in Ht as (Hc & _ & _).
  by eapply contains_false_up.
Qed.

Lemma parentElement_contains (r p : NodeRef) :
  parentElement doc r = Some p → contains p r = true.
Proof.
  destruct r as [|i q]; [done|]. simpl.
  destruct (isElement doc q); [|done]. intros [= <-].
  case_bool_decide; [done|apply contains_refl].
Qed.

(** Both closures are the computation of [target] followed by the
    containment check. *)
Lemma delegatedHandler_matchedTarget (st : State) (l : Listener) (ev : Event) :
  delegatedHandler matches doc st l ev =
  match matchedTarget matches doc l ev with
  | Normal target => callIfContained st (l_handler l) ev target
  | Abrupt e => Threw e
  end.
Proof.
  unfold delegatedHandler, matchedTarget, delegatedHandler_mixin,
    delegatedHandler_function.
  destruct (l_impl l), (ev_target ev) as [t|]; try done;
    destruct (isElement doc t); done.
Qed.

Lemma callIfContained_Invoked (st : State) (h : Handler) (ev : Event)
    (target : option NodeRef) (c : Call) :
  callIfContained st h ev target = Invoked c ↔
  ∃ t, target = Some t ∧ contains (element st) t = true ∧
       c = mkCall h (this_id st) ev t.
Proof.
  unfold callIfContained. split.
  - destruct target as [t|]; [|done].
    destruct (contains (element st) t) eqn:E; [|done].
    intros [= <-]. eauto.
  - intros (t & -> & -> & ->). done.
Qed.

(** Whatever the closure, a call goes to the captured handler, with the
    controller as [this], the event itself, and an element inside the root
    that is the nearest match of some node on the target's ancestor chain. *)
Lemma delegatedHandler_Invoked_inv (st : State) (l : Listener) (ev : Event) (c : Call) :
  delegatedHandler matches doc st l ev = Invoked c →
  ∃ o t, ev_target ev = Some o ∧ closest (l_selector l) o = Some t ∧
         contains (element st) t = true ∧
         c = mkCall (l_handler l) (this_id st) ev t.
Proof.
  rewrite delegatedHandler_matchedTarget. unfold matchedTarget.
  destruct (ev_target ev) as [o|]; [|done].
  destruct (isElement doc o) eqn:Eo.
  - intros (t & Ht & Hc & ->)%callIfContained_Invoked. eauto 6.
  - destruct (l_impl l); [done|].
    intros (t & Ht & Hc & ->)%callIfContained_Invoked.
    destruct o as [|i p]; [done|]. simpl in Ht.
    destruct (isElement doc p); [|done].
    exists (i :: p), t. by rewrite closest_skip.
Qed.

End ClosureFacts.

(** ** Properties of the key encoding *)

Section KeyFacts.

Lemma split_nonempty (sep : ascii) (s : string) : split sep s ≠ [].
Proof.
  induction s as [|c r IH]; simpl; [done|].
  destruct (Ascii.eqb c sep); [done|]. by destruct (split sep r).
Qed.

Lemma split_key (e s : string) :
  colonFree e = true → split ":"%char (key e s) = e :: split ":"%char s.
Proof.
  unfold key. induction e as [|c r IH]; simpl; [done|].
  intros [Hc Hr]%andb_true_iff. apply negb_true_iff in Hc.
  rewrite Hc. by rewrite (IH Hr).
Qed.

(** On a key built from a colon-free event type, the split gives the event
    type back. *)
Lemma eventTypeOfKey_key (e s : string) :
  colonFree e = true → eventTypeOfKey (key e s) = e.
Proof. intros H. unfold eventTypeOfKey. by rewrite split_key. Qed.

(** In general the split gives the part of the key before its first colon. *)
Lemma eventTypeOfKey_prefix (k : string) :
  colonFree (eventTypeOfKey k) = true ∧
  (k = eventTypeOfKey k ∨ ∃ rest, k = key (eventTypeOfKey k) rest).
Proof.
  unfold eventTypeOfKey, key. induction k as [|c r [IHc IHk]]; simpl; [by auto|].
  destruct (Ascii.eqb c ":"%char) eqn:E; simpl.
  - apply Ascii.eqb_eq in E as ->. split; [done|]. right. by exists r.
  - pose proof (split_nonempty ":"%char r) as Hne.
    destruct (split ":"%char r) as [|x xs]; [done|]. simpl in *.
    rewrite E, IHc. split; [done|].
    destruct IHk as [->|[rest ->]]; [by left|right]. by exists rest.
Qed.

Lemma append_inv_head (e x y : string) : e +:+ x = e +:+ y → x = y.
Proof. induction e as [|c r IH]; simpl; [done|]. intros [= H]. auto. Qed.

(** The encoding separates pairs whose event types are colon-free. *)
Lemma key_inj (e1 s1 e2 s2 : string) :
  colonFree e1 = true → colonFree e2 = true →
  key e1 s1 = key e2 s2 → e1 = e2 ∧ s1 = s2.
Proof.
  intros H1 H2 Hk.
  assert (e1 = e2) as <-.
  { rewrite <- (eventTypeOfKey_key e1 s1 H1), <- (eventTypeOfKey_key e2 s2 H2).
    by rewrite Hk. }
  split; [done|]. unfold key in Hk.
  apply append_inv_head in Hk. by injection Hk.
Qed.

Lemma append_assoc (a b c : string) : a +:+ (b +:+ c) = (a +:+ b) +:+ c.
Proof.
  induction a as [|x a IH]; [done|].
  change (String x (a +:+ (b +:+ c)) = String x ((a +:+ b) +:+ c)).
  by rewrite IH.
Qed.

(** With a colon in the event type the encoding is ambiguous: the colon may
    as well belong to the selector. *)
Lemma key_collision (e s1 s2 : string) :
  key e (s1 +:+ ":" +:+ s2) = key (e +:+ ":" +:+ s1) s2.
Proof. unfold key. by rewrite !append_assoc. Qed.

(** With the event type fixed, the selector is recovered from the key. *)
Lemma key_inj_selector (e s1 s2 : string) : key e s1 = key e s2 → s1 = s2.
Proof. unfold key. intros Hk%append_inv_head. by injection Hk. Qed.

End KeyFacts.

(** ** Properties of the listener list *)

Section ListenerList.

Implicit Types (ls : list (string * Listener)) (x : string * Listener).

Lemma elem_of_removeEventListener ty cb ls x :
  x ∈ removeEventListener ty cb ls ↔ x ≠ (ty, cb) ∧ x ∈ ls.
Proof. unfold removeEventListener. by rewrite list_elem_of_filter. Qed.

Lemma elem_of_addEventListener ty cb ls x :
  x ∈ addEventListener ty cb ls ↔ x ∈ ls ∨ x = (ty, cb).
Proof.
  unfold addEventListener. case_bool_decide as E.
  - split; [auto|]. intros [H| ->]; done.
  - by rewrite elem_of_app, list_elem_of_singleton.
Qed.

Lemma addEventListener_fresh ty cb ls :
  (ty, cb) ∉ ls → addEventListener ty cb ls = (ls ++ [(ty, cb)])%list.
Proof. intros H. unfold addEventListener. by rewrite bool_decide_eq_false_2. Qed.

Lemma NoDup_removeEventListener ty cb ls :
  NoDup ls → NoDup (removeEventListener ty cb ls).
Proof. apply NoDup_filter. Qed.

Lemma NoDup_addEventListener ty cb ls :
  NoDup ls → NoDup (addEventListener ty cb ls).
Proof.
  intros H. unfold addEventListener. case_bool_decide as E; [done|].
  apply NoDup_app. split_and!; [done| |apply NoDup_singleton].
  intros x Hx ->%list_elem_of_singleton. done.
Qed.

Lemma removeEventListener_absent ty cb ls :
  (ty, cb) ∉ ls → removeEventListener ty cb ls = ls.
Proof.
  intros H. unfold removeEventListener.
  induction ls as [|y ls IH]; [done|].
  apply not_elem_of_cons in H as [Hy Hls].
  rewrite filter_cons_True by congruence. by rewrite IH.
Qed.

(** The loop of [undelegateAll] removes, for each entry, the pair made of
    the key's part before the first colon and the stored closure; in
    particular the order of the entries is irrelevant. *)
Lemma detachAll_elem_of (entries : list (string * Listener)) ls x :
  x ∈ detachAll entries ls ↔
  x ∈ ls ∧ ∀ k l, (k, l) ∈ entries → x ≠ (eventTypeOfKey k, l).
Proof.
  unfold detachAll. revert ls.
  induction entries as [|[k l] entries IH]; intros ls; simpl.
  - split; [|by intros [? _]]. intros H. split; [done|].
    intros k l Hkl. by apply elem_of_nil in Hkl.
  - rewrite IH, elem_of_removeEventListener. split.
    + intros [[Hx Hls] Hrest]. split; [done|].
      intros k' l' [[= -> ->]|H]%elem_of_cons; auto.
    + intros [Hls Hall]. split_and!; [|done|].
      * apply Hall. by left.
      * intros k' l' H. apply Hall. by right.
Qed.

Lemma NoDup_detachAll (entries : list (string * Listener)) ls :
  NoDup ls → NoDup (detachAll entries ls).
Proof.
  unfold detachAll. revert ls.
  induction entries as [|[k l] entries IH]; intros ls H; simpl; [done|].
  apply IH. by apply NoDup_removeEventListener.
Qed.

End ListenerList.

(** ** What each operation does to the controller *)

Section OperationFacts.

Implicit Types (st : State) (impl : Impl).

Lemma delegate_Normal impl e s h st st' :
  delegate impl e s h st = Normal st' →
  let dh := mkListener (next_closure st) impl s h in
  this_id st' = this_id st ∧ element st' = element st ∧
  next_closure st' = S (next_closure st) ∧
  delegatedEvents st' = Some (<[key e s := dh]> (registry st)) ∧
  element_listeners st' =
    addEventListener e dh
      (match registry st !! key e s with
       | Some existingHandler =>
           removeEventListener e existingHandler (element_listeners st)
       | None => element_listeners st
       end).
Proof.
  unfold delegate, registry.
  destruct impl, (delegatedEvents st) as [m|]; simpl; intros [= <-]; done.
Qed.

Lemma undelegate_Normal impl e s st st' :
  undelegate impl e s st = Normal st' →
  this_id st' = this_id st ∧ element st' = element st ∧
  next_closure st' = next_closure st ∧
  match registry st !! key e s with
  | Some handler =>
      delegatedEvents st' = Some (delete (key e s) (registry st)) ∧
      element_listeners st' =
        removeEventListener e handler (element_listeners st)
  | None => st' = st
  end.
Proof.
  unfold undelegate, registry.
  destruct impl, (delegatedEvents st) as [m|]; simpl; try done;
    try (intros [= <-]; done);
    destruct (m !! key e s); intros [= <-]; done.
Qed.

Lemma undelegateAll_Normal impl st st' :
  undelegateAll impl st = Normal st' →
  this_id st' = this_id st ∧ element st' = element st ∧
  next_closure st' = next_closure st ∧
  registry st' = ∅ ∧
  element_listeners st' =
    detachAll (map_to_list (registry st)) (element_listeners st).
Proof.
  unfold undelegateAll, registry.
  destruct impl, (delegatedEvents st) as [m|] eqn:E; simpl; try done;
    intros [= <-]; simpl; rewrite ?E; simpl; rewrite ?map_to_list_empty; done.
Qed.

Lemma step_total impl op st :
  hasMap impl st → ∃ st', step impl op st = Normal st'.
Proof.
  intros H. unfold hasMap in H.
  destruct op as [e s h|e s|]; simpl;
    unfold delegate, undelegate, undelegateAll;
    destruct impl, (delegatedEvents st) as [m|]; simpl; eauto;
    try (by destruct H as [? ?]);
    destruct (m !! key e s); eauto.
Qed.

Lemma step_hasMap impl op st st' :
  step impl op st = Normal st' → hasMap impl st → hasMap impl st'.
Proof.
  intros Hs H Hi. specialize (H Hi). destruct op as [e s h|e s|]; simpl in Hs.
  - apply delegate_Normal in Hs as (_ & _ & _ & -> & _). eauto.
  - apply undelegate_Normal in Hs as (_ & _ & _ & Hs).
    destruct (registry st !! key e s); [destruct Hs as [-> _]; eauto|by subst].
  - subst impl. unfold undelegateAll in Hs. destruct H as [m Hm].
    rewrite Hm in Hs. injection Hs as <-. simpl. eauto.
Qed.

Lemma step_frame impl op st st' :
  step impl op st = Normal st' →
  this_id st' = this_id st ∧ element st' = element st ∧
  (next_closure st ≤ next_closure st')%nat.
Proof.
  destruct op as [e s h|e s|]; simpl; intros Hs.
  - apply delegate_Normal in Hs as (-> & -> & -> & _). auto.
  - apply undelegate_Normal in Hs as (-> & -> & -> & _). auto.
  - apply undelegateAll_Normal in Hs as (-> & -> & -> & _). auto.
Qed.

End OperationFacts.

(** ** Invariants of every reachable controller *)

Section Invariants.

Implicit Types (st : State) (impl : Impl).

Lemma useDelegation_Sound impl this root : Sound impl (useDelegation impl this root).
Proof.
  split; simpl.
  - intros ->. simpl. eauto.
  - intros x Hx. by apply elem_of_nil in Hx.
  - unfold registry. destruct impl; simpl; intros k l; by rewrite lookup_empty.
  - unfold registry. destruct impl; simpl; intros k1 k2 l; by rewrite lookup_empty.
  - apply NoDup_nil_2.
Qed.

Lemma step_Sound impl op st st' :
  step impl op st = Normal st' → Sound impl st → Sound impl st'.
Proof.
  intros Hs [Hmap Hatt Hsto Hinj Hnd].
  split; [by eapply step_hasMap| | | |]; destruct op as [e s h|e s|];
    simpl in Hs.
  - apply delegate_Normal in Hs as (_ & _ & -> & _ & ->).
    intros x [Hx| ->]%elem_of_addEventListener; [|simpl; lia].
    assert (x ∈ element_listeners st) as Hin.
    { destruct (registry st !! key e s); [|done].
      by apply elem_of_removeEventListener in Hx as [_ ?]. }
    specialize (Hatt x Hin). lia.
  - apply undelegate_Normal in Hs as (_ & _ & -> & Hs).
    destruct (registry st !! key e s); [|by subst].
    destruct Hs as [_ ->]. intros x [_ Hx]%elem_of_removeEventListener. auto.
  - apply undelegateAll_Normal in Hs as (_ & _ & -> & _ & ->).
    intros x [Hx _]%detachAll_elem_of. auto.
  - apply delegate_Normal in Hs as (_ & _ & -> & Hreg & _).
    unfold registry at 1. rewrite Hreg. simpl. intros k l.
    destruct (decide (key e s = k)) as [<-|Hne].
    + rewrite lookup_insert_eq. intros [= <-]. simpl. lia.
    + rewrite lookup_insert_ne by done. intros H. specialize (Hsto k l H). lia.
  - apply undelegate_Normal in Hs as (_ & _ & -> & Hs).
    destruct (registry st !! key e s); [|by subst].
    destruct Hs as [Hreg _]. unfold registry at 1. rewrite Hreg. simpl.
    intros k l' Hl. apply lookup_delete_Some in Hl as [_ Hl]. eauto.
  - apply undelegateAll_Normal in Hs as (_ & _ & _ & -> & _).
    intros k l. by rewrite lookup_empty.
  - apply delegate_Normal in Hs as (_ & _ & _ & Hreg & _).
    unfold registry at 1 2. rewrite Hreg. simpl. intros k1 k2 l.
    destruct (decide (key e s = k1)) as [<-|Hne1];
      destruct (decide (key e s = k2)) as [<-|Hne2]; [done| | |].
    + rewrite lookup_insert_eq, lookup_insert_ne by done.
      intros [= <-] H. specialize (Hsto _ _ H). simpl in Hsto. lia.
    + rewrite lookup_insert_eq, lookup_insert_ne by done.
      intros H [= <-]. specialize (Hsto _ _ H). simpl in Hsto. lia.
    + rewrite !lookup_insert_ne by done. apply Hinj.
  - apply undelegate_Normal in Hs as (_ & _ & _ & Hs).
    destruct (registry st !! key e s); [|by subst].
    destruct Hs as [Hreg _]. unfold registry at 1 2. rewrite Hreg. simpl.
    intros k1 k2 l' [_ H1]%lookup_delete_Some [_ H2]%lookup_delete_Some.
    by apply (Hinj k1 k2 l').
  - apply undelegateAll_Normal in Hs as (_ & _ & _ & -> & _).
    intros k1 k2 l. by rewrite lookup_empty.
  - apply delegate_Normal in Hs as (_ & _ & _ & _ & ->).
    apply NoDup_addEventListener.
    destruct (registry st !! key e s); [|done].
    by apply NoDup_removeEventListener.
  - apply undelegate_Normal in Hs as (_ & _ & _ & Hs).
    destruct (registry st !! key e s); [|by subst].
    destruct Hs as [_ ->]. by apply NoDup_removeEventListener.
  - apply undelegateAll_Normal in Hs as (_ & _ & _ & _ & ->).
    by apply NoDup_detachAll.
Qed.

Lemma Reachable_Sound impl st : Reachable impl st → Sound impl st.
Proof.
  induction 1 as [this root|st st' op _ IH Hs].
  - apply useDelegation_Sound.
  - by eapply step_Sound.
Qed.

Lemma Reachable_run impl ops st st' :
  Reachable impl st → run impl ops st = Normal st' → Reachable impl st'.
Proof.
  revert st. induction ops as [|op ops IH]; simpl; intros st Hr.
  - by intros [= <-].
  - destruct (step impl op st) as [st1|] eqn:Hs; [|done].
    apply IH. by eapply reach_step.
Qed.

(** From a reachable controller, no sequence of operations fails. *)
Lemma run_total impl ops st :
  Reachable impl st → ∃ st', run impl ops st = Normal st'.
Proof.
  revert st. induction ops as [|op ops IH]; simpl; intros st Hr; [eauto|].
  destruct (step_total impl op st) as [st1 Hs].
  { by apply Reachable_Sound. }
  rewrite Hs. apply IH. by eapply reach_step.
Qed.

(** The closure [delegate] is about to create is attached nowhere yet. *)
Lemma next_closure_fresh impl st ty (l : Listener) :
  Sound impl st → l_id l = next_closure st → (ty, l) ∉ element_listeners st.
Proof.
  intros HS Hid Hin. apply (sound_attached _ _ HS) in Hin. simpl in Hin. lia.
Qed.

Lemma step_attachedOnlyFor impl op (allowed : string → Prop) (l : Listener)
    st st' :
  step impl op st = Normal st' →
  attachedOnlyFor allowed l st → attachedOnlyFor allowed l st'.
Proof.
  intros Hs [Hid Hls]. split.
  { apply step_frame in Hs as (_ & _ & ?). lia. }
  intros ty. destruct op as [e s h|e s|]; simpl in Hs.
  - apply delegate_Normal in Hs as (_ & _ & _ & _ & ->).
    intros [Hx|[= -> ->]]%elem_of_addEventListener; [|simpl in Hid; lia].
    destruct (registry st !! key e s).
    + apply elem_of_removeEventListener in Hx as [_ Hx]. by apply (Hls ty).
    + by apply (Hls ty).
  - apply undelegate_Normal in Hs as (_ & _ & _ & Hs).
    destruct (registry st !! key e s); [|subst; apply Hls].
    destruct Hs as [_ ->]. intros [_ Hx]%elem_of_removeEventListener.
    by apply (Hls ty).
  - apply undelegateAll_Normal in Hs as (_ & _ & _ & _ & ->).
    intros [Hx _]%detachAll_elem_of. by apply (Hls ty).
Qed.

Lemma run_attachedOnlyFor impl ops (allowed : string → Prop) (l : Listener)
    st st' :
  run impl ops st = Normal st' →
  attachedOnlyFor allowed l st → attachedOnlyFor allowed l st'.
Proof.
  revert st. induction ops as [|op ops IH]; simpl; intros st.
  - by intros [= <-].
  - destruct (step impl op st) as [st1|] eqn:Hs; [|done].
    intros Hr Hd. apply (IH st1 Hr). by eapply step_attachedOnlyFor.
Qed.

Lemma run_next_closure impl ops st st' :
  run impl ops st = Normal st' →
  this_id st' = this_id st ∧ element st' = element st ∧
  (next_closure st ≤ next_closure st')%nat.
Proof.
  revert st. induction ops as [|op ops IH]; simpl; intros st.
  - by intros [= <-].
  - destruct (step impl op st) as [st1|] eqn:Hs; [|done].
    intros Hr. apply step_frame in Hs as (<- & <- & ?).
    destruct (IH st1 Hr) as (-> & -> & ?). split_and!; [done|done|lia].
Qed.

(** As long as a closure is the entry of its key, it stays attached for the
    event type it was attached for. *)
Lemma step_stillAttached impl op e k (l : Listener) st st' :
  Sound impl st → (l_id l < next_closure st)%nat →
  step impl op st = Normal st' →
  stillAttached e k l st → stillAttached e k l st'.
Proof.
  intros HS Hid Hs Hatt. unfold stillAttached in *.
  destruct op as [e' s' h'|e' s'|]; simpl in Hs.
  - apply delegate_Normal in Hs as (_ & _ & _ & Hreg & ->).
    unfold registry at 1. rewrite Hreg. simpl.
    destruct (decide (key e' s' = k)) as [<-|Hne].
    + rewrite lookup_insert_eq. intros [= <-]. simpl in Hid. lia.
    + rewrite lookup_insert_ne by done. intros Hl.
      apply elem_of_addEventListener. left.
      destruct (registry st !! key e' s') as [old|] eqn:Eo; [|auto].
      apply elem_of_removeEventListener. split; [|auto].
      intros [= _ ->]. apply Hne. by apply (sound_inj _ _ HS _ _ old).
  - apply undelegate_Normal in Hs as (_ & _ & _ & Hs).
    destruct (registry st !! key e' s') as [old|] eqn:Eo; [|by subst].
    destruct Hs as [Hreg ->]. unfold registry at 1. rewrite Hreg. simpl.
    intros [Hne Hl]%lookup_delete_Some.
    apply elem_of_removeEventListener. split; [|auto].
    intros [= _ ->]. apply Hne. by apply (sound_inj _ _ HS _ _ old).
  - apply undelegateAll_Normal in Hs as (_ & _ & _ & -> & _).
    by rewrite lookup_empty.
Qed.

Lemma run_stillAttached impl ops e k (l : Listener) st st' :
  Sound impl st → (l_id l < next_closure st)%nat →
  run impl ops st = Normal st' →
  stillAttached e k l st → stillAttached e k l st'.
Proof.
  revert st. induction ops as [|op ops IH]; simpl; intros st HS Hid.
  - by intros [= <-].
  - destruct (step impl op st) as [st1|] eqn:Hs; [|done].
    intros Hr Hatt. apply (IH st1); [by eapply step_Sound| |done|].
    + apply step_frame in Hs as (_ & _ & ?). lia.
    + by eapply step_stillAttached.
Qed.

(** Only attached closures run. *)
Lemma elem_of_invoked st node ev (l : Listener) :
  l ∈ invoked st node ev ↔
  reachesRoot st node ev = true ∧ (ev_type ev, l) ∈ element_listeners st.
Proof.
  unfold invoked. destruct (reachesRoot st node ev).
  - rewrite list_elem_of_In, in_map_iff. split.
    + intros ([ty l'] & Hl & Hin). simpl in Hl. subst l'.
      apply list_elem_of_In, list_elem_of_filter in Hin as [Hty Hin].
      simpl in Hty. by subst ty.
    + intros [_ Hin]. exists (ev_type ev, l). split; [done|].
      apply list_elem_of_In, list_elem_of_filter. done.
  - rewrite elem_of_nil. split; [done|]. by intros [? _].
Qed.

End Invariants.

(** ** The registry mirrors the listener list, for colon-free event types *)

Section TightRegistry.

Implicit Types (st : State) (impl : Impl).

Lemma useDelegation_Tight impl this root : Tight (useDelegation impl this root).
Proof.
  split; simpl.
  - intros x Hx. by apply elem_of_nil in Hx.
  - unfold registry. destruct impl; simpl; intros k l; by rewrite lookup_empty.
Qed.

Lemma Tight_entry st e s (old : Listener) :
  Tight st → colonFree e = true → registry st !! key e s = Some old →
  l_selector old = s ∧ (e, old) ∈ element_listeners st.
Proof.
  intros HT He Hold.
  destruct (tight_stored _ HT _ _ Hold) as (ty & Hty & Hk & Hin).
  apply key_inj in Hk as [-> ->]; done.
Qed.

Lemma Tight_same_key st e s x :
  Tight st → colonFree e = true → x ∈ element_listeners st →
  keyOf x = key e s → registry st !! key e s = Some x.2 ∧ x.1 = e.
Proof.
  intros HT He Hx Hk.
  destruct (tight_attached _ HT _ Hx) as [Hc Hreg].
  rewrite Hk in Hreg. split; [done|].
  unfold keyOf in Hk. by apply key_inj in Hk as [? ?].
Qed.

Lemma step_Tight impl op st st' :
  colonFreeOp op = true → step impl op st = Normal st' → Tight st → Tight st'.
Proof.
  intros Hop Hs HT. destruct op as [e s h|e s|]; simpl in Hs, Hop;
    unfold colonFreeOp in Hop; simpl in Hop.
  - apply delegate_Normal in Hs as (_ & _ & _ & Hreg & Hls).
    set (dh := mkListener (next_closure st) impl s h) in *.
    assert (registry st' = <[key e s := dh]> (registry st)) as Hreg'.
    { unfold registry at 1. by rewrite Hreg. }
    assert (∀ x, x ∈ element_listeners st' ↔
                 x = (e, dh) ∨ (x ∈ element_listeners st ∧ keyOf x ≠ key e s))
      as Hmem.
    { intros x. rewrite Hls, elem_of_addEventListener. split.
      - intros [Hx|Hx]; [right|by left].
        destruct (registry st !! key e s) as [old|] eqn:Eo.
        + apply elem_of_removeEventListener in Hx as [Hne Hx]. split; [done|].
          intros Hk. destruct (Tight_same_key st e s x HT Hop Hx Hk) as [Hr Hty].
          apply Hne. destruct x as [ty l]. simpl in *. congruence.
        + split; [done|]. intros Hk.
          destruct (Tight_same_key st e s x HT Hop Hx Hk) as [Hr _]. congruence.
      - intros [->|[Hx Hk]]; [by right|left].
        destruct (registry st !! key e s) as [old|] eqn:Eo; [|done].
        apply elem_of_removeEventListener. split; [|done].
        intros ->. apply Hk. unfold keyOf. simpl.
        by destruct (Tight_entry st e s old HT Hop Eo) as [-> _]. }
    split.
    + intros x [->|[Hx Hk]]%Hmem.
      * split; [done|]. rewrite Hreg'. unfold keyOf. simpl.
        by rewrite lookup_insert_eq.
      * destruct (tight_attached _ HT _ Hx) as [Hc Hr]. split; [done|].
        rewrite Hreg'. by rewrite lookup_insert_ne.
    + intros k l. rewrite Hreg'.
      destruct (decide (key e s = k)) as [<-|Hne].
      * rewrite lookup_insert_eq. intros [= <-]. exists e.
        split_and!; [done|done|]. apply Hmem. by left.
      * rewrite lookup_insert_ne by done. intros Hl.
        destruct (tight_stored _ HT _ _ Hl) as (ty & Hty & -> & Hin).
        exists ty. split_and!; [done|done|]. apply Hmem. right. done.
  - apply undelegate_Normal in Hs as (_ & _ & _ & Hs).
    destruct (registry st !! key e s) as [old|] eqn:Eo; [|by subst].
    destruct Hs as [Hreg Hls].
    assert (registry st' = delete (key e s) (registry st)) as Hreg'.
    { unfold registry at 1. by rewrite Hreg. }
    destruct (Tight_entry st e s old HT Hop Eo) as [Hsel Hold].
    assert (∀ x, x ∈ element_listeners st' ↔
                 x ∈ element_listeners st ∧ keyOf x ≠ key e s) as Hmem.
    { intros x. rewrite Hls, elem_of_removeEventListener. split.
      - intros [Hne Hx]. split; [done|]. intros Hk.
        destruct (Tight_same_key st e s x HT Hop Hx Hk) as [Hr Hty].
        apply Hne. destruct x as [ty l]. simpl in *. congruence.
      - intros [Hx Hk]. split; [|done]. intros ->. apply Hk.
        unfold keyOf. simpl. by rewrite Hsel. }
    split.
    + intros x [Hx Hk]%Hmem.
      destruct (tight_attached _ HT _ Hx) as [Hc Hr]. split; [done|].
      rewrite Hreg'. by rewrite lookup_delete_ne.
    + intros k l. rewrite Hreg'. intros [Hne Hl]%lookup_delete_Some.
      destruct (tight_stored _ HT _ _ Hl) as (ty & Hty & -> & Hin).
      exists ty. split_and!; [done|done|]. apply Hmem. done.
  - apply undelegateAll_Normal in Hs as (_ & _ & _ & Hreg & Hls).
    split.
    + intros x. rewrite Hls. intros [Hx Hall]%detachAll_elem_of.
      destruct (tight_attached _ HT _ Hx) as [Hc Hr].
      exfalso. apply (Hall (keyOf x) x.2).
      * by apply elem_of_map_to_list.
      * unfold keyOf. rewrite eventTypeOfKey_key by done. by destruct x.
    + intros k l. rewrite Hreg. by rewrite lookup_empty.
Qed.

Lemma run_Tight impl ops st st' :
  forallb colonFreeOp ops = true → run impl ops st = Normal st' →
  Tight st → Tight st'.
Proof.
  revert st. induction ops as [|op ops IH]; simpl; intros st.
  - by intros _ [= <-].
  - intros [Hop Hops]%andb_true_iff.
    destruct (step impl op st) as [st1|] eqn:Hs; [|done].
    intros Hr HT. apply (IH st1 Hops Hr). by eapply step_Tight.
Qed.

(** Teardown of a tight registry leaves no listener behind. *)
Lemma undelegateAll_Tight_nil impl st st' :
  Tight st → undelegateAll impl st = Normal st' → element_listeners st' = [].
Proof.
  intros HT Hs.
  assert (Tight st') as HT' by (by apply (step_Tight impl UndelegateAll st st')).
  apply undelegateAll_Normal in Hs as (_ & _ & _ & Hreg & _).
  apply elem_of_nil_inv. intros x Hx.
  destruct (tight_attached _ HT' _ Hx) as [_ Hr].
  rewrite Hreg in Hr. by rewrite lookup_empty in Hr.
Qed.

End TightRegistry.

(** ** Dispatch *)

Section Dispatch.

Variable matches : Node → NodeRef → string → bool.
Variable doc : Node.

Implicit Types (st : State) (impl : Impl) (ev : Event) (l : Listener).

(** The function-based closure on a target that is not an element: the
    parent element stands in for it, and without one nothing happens. *)
Lemma delegatedHandler_function_non_element st sel h ev o :
  ev_target ev = Some o → isElement doc o = false →
  delegatedHandler_function matches doc st sel h ev =
  match parentElement doc o with
  | Some el => callIfContained st h ev (closest matches doc sel el)
  | None => NoEffect
  end.
Proof.
  intros Ht He. unfold delegatedHandler_function. rewrite Ht, He.
  by destruct (parentElement doc o).
Qed.

(** The object mixin's closure on such a target: [closest] is not a function
    there. *)
Lemma delegatedHandler_mixin_non_element st sel h ev o :
  ev_target ev = Some o → isElement doc o = false →
  delegatedHandler_mixin matches doc st sel h ev = Threw TypeError.
Proof. intros Ht He. unfold delegatedHandler_mixin. by rewrite Ht, He. Qed.

(** In a well-formed document, what the function-based closure matches from
    is the nearest element ancestor of a non-element target. *)
Lemma function_text_node_resolved st sel h ev o :
  wellFormed doc → is_Some (nodeAt doc o) →
  ev_target ev = Some o → isElement doc o = false →
  delegatedHandler_function matches doc st sel h ev =
  match head (elementAncestors doc o) with
  | Some el => callIfContained st h ev (closest matches doc sel el)
  | None => NoEffect
  end.
Proof.
  intros Hwf Ho Ht He.
  rewrite (delegatedHandler_function_non_element st sel h ev o Ht He).
  by rewrite (parentElement_nearest doc o Hwf Ho).
Qed.

(** C10. On an event whose target is an element, the closure of the object
    mixin and the closure of the function-based version do the same: they
    call the handler exactly when [closest] finds an element that the root
    contains, with the controller as [this], the event and that element. *)
Theorem closures_agree_on_element_targets st sel h ev o :
  ev_target ev = Some o → isElement doc o = true →
  delegatedHandler_mixin matches doc st sel h ev =
    delegatedHandler_function matches doc st sel h ev ∧
  (∀ id, delegatedHandler matches doc st (mkListener id ObjectMixin sel h) ev =
         delegatedHandler matches doc st (mkListener id FunctionBased sel h) ev) ∧
  (∀ c, delegatedHandler_function matches doc st sel h ev = Invoked c ↔
        ∃ t, closest matches doc sel o = Some t ∧
             contains (element st) t = true ∧
             c = mkCall h (this_id st) ev t) ∧
  ((∀ c, delegatedHandler_function matches doc st sel h ev ≠ Invoked c) →
   delegatedHandler_mixin matches doc st sel h ev = NoEffect).
Proof.
  intros Ht He.
  assert (delegatedHandler_mixin matches doc st sel h ev =
          callIfContained st h ev (closest matches doc sel o)) as Hm.
  { unfold delegatedHandler_mixin. by rewrite Ht, He. }
  assert (delegatedHandler_function matches doc st sel h ev =
          callIfContained st h ev (closest matches doc sel o)) as Hf.
  { unfold delegatedHandler_function. by rewrite Ht, He. }
  split_and!.
  - by rewrite Hm, Hf.
  - intros id. unfold delegatedHandler. simpl. by rewrite Hm, Hf.
  - intros c. rewrite Hf. apply callIfContained_Invoked.
  - rewrite Hm, Hf. unfold callIfContained.
    destruct (closest matches doc sel o) as [t|]; [|done].
    destruct (contains (element st) t); [|done].
    intros H. by destruct (H _ eq_refl).
Qed.

(** C7. An event without a target makes the physical listener return
    without calling the handler and without throwing, in both versions;
    so a dispatch of such an event has no effect at all. *)
Theorem null_target_no_effect st l ev node :
  ev_target ev = None →
  delegatedHandler matches doc st l ev = NoEffect ∧
  Forall (λ out, out = NoEffect) (dispatchEvent matches doc st node ev).
Proof.
  intros Ht.
  assert (∀ l', delegatedHandler matches doc st l' ev = NoEffect) as H.
  { intros l'. unfold delegatedHandler, delegatedHandler_mixin,
      delegatedHandler_function. rewrite Ht. by destruct (l_impl l'). }
  split; [apply H|].
  unfold dispatchEvent. apply Forall_forall. intros out Hin.
  apply list_elem_of_In, in_map_iff in Hin as (l' & <- & _). apply H.
Qed.

(** C4. When the element bound to [target] lies outside the root, the
    closure returns without any effect.  And an event whose target lies
    outside the root never gets the handler called: whatever [closest]
    finds from there is outside too. *)
Theorem match_outside_root_no_effect st l ev :
  (∀ t, matchedTarget matches doc l ev = Normal (Some t) →
        contains (element st) t = false →
        delegatedHandler matches doc st l ev = NoEffect) ∧
  (∀ o t, ev_target ev = Some o →
          closest matches doc (l_selector l) o = Some t →
          contains (element st) t = false →
          (∀ c, delegatedHandler matches doc st l ev ≠ Invoked c) ∧
          (l_impl l = FunctionBased ∨ isElement doc o = true →
           delegatedHandler matches doc st l ev = NoEffect)) ∧
  (∀ o, ev_target ev = Some o → contains (element st) o = false →
        ∀ c, delegatedHandler matches doc st l ev ≠ Invoked c) ∧
  (∀ node, contains (element st) node = false →
           dispatchEvent matches doc st node ev = []).
Proof.
  split_and!.
  - intros t Hm Hc. rewrite delegatedHandler_matchedTarget, Hm. simpl.
    by rewrite Hc.
  - intros o t Ho Ht Hc. split.
    + intros c (o' & t' & Ho' & Ht' & Hc' & _)%delegatedHandler_Invoked_inv.
      congruence.
    + intros Hcase. rewrite delegatedHandler_matchedTarget.
      unfold matchedTarget. rewrite Ho.
      destruct (isElement doc o) eqn:Eo.
      { simpl. rewrite Ht. simpl. by rewrite Hc. }
      destruct Hcase as [->|?]; [|done].
      destruct o as [|i p]; [done|]. simpl.
      rewrite closest_skip in Ht by done.
      destruct (isElement doc p); [|done]. rewrite Ht. simpl. by rewrite Hc.
  - intros o Ho Hc c (o' & t & Ho' & Ht & Hc' & _)%delegatedHandler_Invoked_inv.
    assert (o' = o) as -> by congruence.
    by rewrite (closest_outside_root matches doc _ _ _ _ Hc Ht) in Hc'.
  - intros node Hc. unfold dispatchEvent, invoked, reachesRoot.
    rewrite Hc, andb_false_r, orb_false_r.
    case_bool_decide as E; [|done]. subst node.
    by rewrite contains_refl in Hc.
Qed.

End Dispatch.

(** ** Registration and dispatch *)

Section Registration.

Variable matches : Node → NodeRef → string → bool.
Variable doc : Node.

Implicit Types (st : State) (impl : Impl) (ev : Event) (l : Listener).

(** [delegate] attaches its new closure last, after what was attached
    before minus the replaced closure. *)
Lemma delegate_appends impl e s h st st' :
  Sound impl st → delegate impl e s h st = Normal st' →
  let dh := mkListener (next_closure st) impl s h in
  ∃ kept, element_listeners st' = (kept ++ [(e, dh)])%list ∧
          (∀ x, x ∈ kept → x ∈ element_listeners st) ∧
          (∀ ty, (ty, dh) ∉ kept) ∧
          (∀ old, registry st !! key e s = Some old → (e, old) ∉ kept).
Proof.
  intros HS Hd dh. apply delegate_Normal in Hd as (_ & _ & _ & _ & Hls).
  fold dh in Hls.
  assert (∀ ty, (ty, dh) ∉ element_listeners st) as Hfresh.
  { intros ty. by apply (next_closure_fresh impl). }
  destruct (registry st !! key e s) as [old|] eqn:Eo.
  - exists (removeEventListener e old (element_listeners st)).
    assert (∀ ty, (ty, dh) ∉ removeEventListener e old (element_listeners st))
      as Hfresh'.
    { intros ty [_ H]%elem_of_removeEventListener. by apply (Hfresh ty). }
    split_and!.
    + rewrite Hls. by apply addEventListener_fresh.
    + by intros x [_ H]%elem_of_removeEventListener.
    + done.
    + intros old' [= <-] [H _]%elem_of_removeEventListener. done.
  - exists (element_listeners st). split_and!; try done.
    rewrite Hls. by apply addEventListener_fresh.
Qed.

Lemma invoked_app st node ev kept e l :
  reachesRoot st node ev = true → ev_type ev = e →
  element_listeners st = (kept ++ [(e, l)])%list →
  invoked st node ev =
    (map snd (filter (λ x, x.1 = ev_type ev) kept) ++ [l])%list.
Proof.
  intros Hr He Hls. unfold invoked. rewrite Hr, Hls, filter_app, map_app.
  f_equal. rewrite filter_cons_True by done. done.
Qed.

Lemma NoDup_invoked st node ev :
  NoDup (element_listeners st) → NoDup (invoked st node ev).
Proof.
  intros Hnd. unfold invoked.
  destruct (reachesRoot st node ev); [|apply NoDup_nil_2].
  apply (NoDup_fmap_2_strong snd); [|by apply NoDup_filter].
  intros [ty1 l1] [ty2 l2] [H1 _]%list_elem_of_filter [H2 _]%list_elem_of_filter.
  simpl in *. congruence.
Qed.

(** The closure made by a [delegate] call, for as long as it is the entry of
    the call's key: it is attached for the call's event type, and for no
    other. *)
Lemma delegated_closure_attached impl st0 st1 st e s h between :
  Reachable impl st0 →
  delegate impl e s h st0 = Normal st1 →
  run impl between st1 = Normal st →
  let dh := mkListener (next_closure st0) impl s h in
  Reachable impl st ∧
  this_id st = this_id st0 ∧ element st = element st0 ∧
  (next_closure st0 < next_closure st)%nat ∧
  attachedOnlyFor (λ ty, ty = e) dh st ∧
  stillAttached e (key e s) dh st.
Proof.
  intros Hreach Hd Hrun dh.
  pose proof (Reachable_Sound _ _ Hreach) as HS.
  assert (Reachable impl st1) as Hreach1.
  { by apply (reach_step impl st0 st1 (Delegate e s h)). }
  pose proof (Reachable_Sound _ _ Hreach1) as HS1.
  destruct (delegate_appends impl e s h st0 st1 HS Hd)
    as (kept & Hls & _ & Hfresh & _). fold dh in Hls, Hfresh.
  pose proof (delegate_Normal _ _ _ _ _ _ Hd) as (Hthis & Hroot & Hnext & _).
  destruct (run_next_closure impl between st1 st Hrun) as (Hthis' & Hroot' & Hle).
  assert (l_id dh < next_closure st1)%nat as Hid by (simpl; lia).
  split_and!.
  - by apply (Reachable_run impl between st1).
  - congruence.
  - congruence.
  - lia.
  - apply (run_attachedOnlyFor impl between _ dh st1 st Hrun).
    split; [done|]. intros ty. rewrite Hls.
    intros [Hin|Hin%list_elem_of_singleton]%elem_of_app; [|congruence].
    by destruct (Hfresh ty).
  - apply (run_stillAttached impl between e (key e s) dh st1 st HS1 Hid Hrun).
    intros _. rewrite Hls. apply elem_of_app. right. by left.
Qed.

(** For as long as the closure made by
    [delegate(eventType, selector, handler)] is the entry of its key, an
    event of that type that reaches the root, whose target is an element
    inside the root with a matching element of the root on its ancestor
    chain, runs that closure exactly once, and the run calls the handler
    with the controller as [this], the event itself, and the nearest
    matching inclusive ancestor of the target.  This bounds the runs of
    the one closure, not the calls of the handler. *)
Lemma delegate_invokes_handler_once impl st0 st1 st e s h between node ev o a :
  Reachable impl st0 →
  delegate impl e s h st0 = Normal st1 →
  run impl between st1 = Normal st →
  registry st !! key e s = Some (mkListener (next_closure st0) impl s h) →
  ev_type ev = e → ev_target ev = Some o →
  reachesRoot st node ev = true →
  isElement doc o = true →
  contains a o = true → contains (element st0) a = true →
  isElement doc a = true → matches doc a s = true →
  let dh := mkListener (next_closure st0) impl s h in
  ∃ t,
    closest matches doc s o = Some t ∧
    contains t o = true ∧ contains (element st0) t = true ∧
    isElement doc t = true ∧ matches doc t s = true ∧
    (∀ a', contains a' o = true → isElement doc a' = true →
           matches doc a' s = true → contains a' t = true) ∧
    (matches doc o s = true → t = o) ∧
    dh ∈ invoked st node ev ∧ NoDup (invoked st node ev) ∧
    delegatedHandler matches doc st dh ev =
      Invoked (mkCall h (this_id st0) ev t) ∧
    Invoked (mkCall h (this_id st0) ev t) ∈
      dispatchEvent matches doc st node ev ∧
    (between = [] →
     ∃ before,
       (dh ∉ before) ∧
       dispatchEvent matches doc st node ev =
         (map (λ l, delegatedHandler matches doc st l ev) before
            ++ [Invoked (mkCall h (this_id st0) ev t)])%list ∧
       (element_listeners st0 = [] → before = [])).
Proof.
  intros Hreach Hd Hrun Hreg He Ht Hr Ho Hao Hra Hea Hma dh.
  destruct (delegated_closure_attached impl st0 st1 st e s h between
              Hreach Hd Hrun) as (Hreach' & Hthis & Hroot & _ & _ & Hatt).
  fold dh in Hatt, Hreg. specialize (Hatt Hreg).
  pose proof (Reachable_Sound _ _ Hreach) as HS.
  pose proof (Reachable_Sound _ _ Hreach') as HS'.
  destruct (closest_within_root matches doc s (element st0) o a Hao Hra Hea Hma)
    as (t & Hcl & Hct).
  destruct (closest_Some_inv matches doc s o t Hcl) as (Hto & Het & Hmt).
  assert (delegatedHandler matches doc st dh ev =
          Invoked (mkCall h (this_id st0) ev t)) as Hcall.
  { rewrite delegatedHandler_matchedTarget. unfold matchedTarget.
    rewrite Ht, Ho. simpl. rewrite Hcl. simpl.
    by rewrite Hroot, Hct, Hthis. }
  assert (dh ∈ invoked st node ev) as Hin.
  { apply elem_of_invoked. split; [done|]. by rewrite He. }
  exists t. split_and!; try done.
  - intros a'. by apply closest_nearest.
  - intros Hmo. rewrite (closest_self matches doc s o Ho Hmo) in Hcl. congruence.
  - apply NoDup_invoked, (sound_nodup _ _ HS').
  - unfold dispatchEvent. apply list_elem_of_In, in_map_iff.
    exists dh. split; [done|]. by apply list_elem_of_In.
  - intros ->. simpl in Hrun. injection Hrun as ->.
    destruct (delegate_appends impl e s h st0 st HS Hd)
      as (kept & Hls & Hkept & Hfresh & _). fold dh in Hls, Hfresh.
    exists (map snd (filter (λ x, x.1 = ev_type ev) kept)). split_and!.
    + intros Hb. apply list_elem_of_In, in_map_iff in Hb as ([ty l'] & Hl & Hb).
      simpl in Hl. subst l'.
      apply list_elem_of_In, list_elem_of_filter in Hb as [_ Hb].
      by apply (Hfresh ty).
    + unfold dispatchEvent.
      rewrite (invoked_app st node ev kept e dh Hr He Hls), map_app. simpl.
      by rewrite Hcall.
    + intros Hnil. destruct kept as [|x kept]; [done|].
      assert (x ∈ element_listeners st0) as Hx by (apply Hkept; by left).
      rewrite Hnil in Hx. by apply elem_of_nil in Hx.
Qed.

(** Calling [delegate] again for a pair whose earlier closure is still the
    entry of the key detaches that closure before the new one is stored and
    attached: the registry does not grow, the old closure is attached for
    no event type and is not run by any later event whatever operations
    follow, and the new closure runs for every event of the type that
    reaches the root.  This is about the two closures only. *)
Lemma delegate_again_replaces impl st0 st1 st2 st3 e s h1 h2 between :
  Reachable impl st0 →
  delegate impl e s h1 st0 = Normal st1 →
  run impl between st1 = Normal st2 →
  registry st2 !! key e s = Some (mkListener (next_closure st0) impl s h1) →
  delegate impl e s h2 st2 = Normal st3 →
  let old := mkListener (next_closure st0) impl s h1 in
  let new := mkListener (next_closure st2) impl s h2 in
  (e, old) ∈ element_listeners st2 ∧
  registry st3 = <[key e s := new]> (registry st2) ∧
  registry st3 !! key e s = Some new ∧
  size (registry st3) = size (registry st2) ∧
  old ≠ new ∧
  (∀ ty, (ty, old) ∉ element_listeners st3) ∧
  (∃ kept, element_listeners st3 = (kept ++ [(e, new)])%list ∧
           ∀ ty, (ty, new) ∉ kept) ∧
  (∀ ops st4 node ev, run impl ops st3 = Normal st4 →
                      old ∉ invoked st4 node ev) ∧
  (∀ node ev, ev_type ev = e → reachesRoot st3 node ev = true →
              new ∈ invoked st3 node ev) ∧
  (∀ ev o t, ev_target ev = Some o → isElement doc o = true →
             closest matches doc s o = Some t →
             contains (element st0) t = true →
             delegatedHandler matches doc st3 new ev =
               Invoked (mkCall h2 (this_id st0) ev t)).
Proof.
  intros Hreach Hd1 Hrun Hlk Hd2 old new.
  destruct (delegated_closure_attached impl st0 st1 st2 e s h1 between
              Hreach Hd1 Hrun)
    as (Hreach2 & Hthis & Hroot & Hlt & [Hid Honly] & Hatt).
  fold old in Hlk, Hatt, Hid, Honly. specialize (Hatt Hlk).
  pose proof (Reachable_Sound _ _ Hreach2) as HS2.
  destruct (delegate_appends impl e s h2 st2 st3 HS2 Hd2)
    as (kept & Hls & Hkept & Hfresh & Hold). fold new in Hls, Hfresh.
  pose proof (delegate_Normal _ _ _ _ _ _ Hd2)
    as (Hthis3 & Hroot3 & Hnext3 & Hreg3 & _). fold new in Hreg3.
  assert (registry st3 = <[key e s := new]> (registry st2)) as Hr3.
  { unfold registry at 1. by rewrite Hreg3. }
  assert (old ≠ new) as Hne.
  { unfold old, new. intros [= H]. lia. }
  assert (∀ ty, (ty, old) ∉ element_listeners st3) as Hgone.
  { intros ty. rewrite Hls.
    intros [Hin|Hin%list_elem_of_singleton]%elem_of_app.
    2:{ apply Hne. congruence. }
    pose proof (Hkept _ Hin) as Hin2. apply Honly in Hin2. subst ty.
    by apply (Hold old Hlk). }
  split_and!; try done.
  - rewrite Hr3. apply lookup_insert_eq.
  - rewrite Hr3. apply map_size_insert_Some. eauto.
  - eauto.
  - intros ops st4 node ev Hrun4 [_ Hin]%elem_of_invoked.
    assert (detached old st3) as Hdet.
    { split; [simpl; lia|]. intros ty Hty. by apply (Hgone ty). }
    destruct (run_attachedOnlyFor impl ops _ old st3 st4 Hrun4 Hdet)
      as [_ Hnot].
    by apply (Hnot (ev_type ev)).
  - intros node ev He Hr. apply elem_of_invoked. split; [done|].
    rewrite Hls, He. apply elem_of_app. right. by left.
  - intros ev o t Ho Heo Hcl Hct.
    rewrite delegatedHandler_matchedTarget. unfold matchedTarget.
    rewrite Ho, Heo. simpl. rewrite Hcl. simpl.
    by rewrite Hroot3, Hroot, Hct, Hthis3, Hthis.
Qed.

End Registration.

(** ** Teardown *)

Section Teardown.

Implicit Types (st : State) (impl : Impl) (l : Listener).

(** C9. [undelegateAll] detaches, for each entry, the stored closure from
    the event type it reads off the key: the part before the first colon.
    So an entry filed by [delegate] under a colon-free event type has
    exactly its closure detached from exactly that type. *)
Theorem undelegateAll_detaches_by_key_prefix impl st st' e s l :
  undelegateAll impl st = Normal st' →
  colonFree e = true →
  registry st !! key e s = Some l →
  (∀ x, x ∈ element_listeners st' ↔
        x ∈ element_listeners st ∧
        ∀ k l', registry st !! k = Some l' → x ≠ (eventTypeOfKey k, l')) ∧
  (∀ k, colonFree (eventTypeOfKey k) = true ∧
        (k = eventTypeOfKey k ∨ ∃ rest, k = key (eventTypeOfKey k) rest)) ∧
  eventTypeOfKey (key e s) = e ∧
  (∀ ls, detachAll [(key e s, l)] ls = removeEventListener e l ls) ∧
  ((e, l) ∉ element_listeners st') ∧
  (∀ st0 h, Reachable impl st0 → delegate impl e s h st0 = Normal st →
            l = mkListener (next_closure st0) impl s h ∧
            (e, l) ∈ element_listeners st ∧
            ∀ ty, (ty, l) ∈ element_listeners st → ty = e).
Proof.
  intros Hu He Hl.
  apply undelegateAll_Normal in Hu as (_ & _ & _ & _ & Hls).
  assert (∀ x, x ∈ element_listeners st' ↔
               x ∈ element_listeners st ∧
               ∀ k l', registry st !! k = Some l' → x ≠ (eventTypeOfKey k, l'))
    as Hmem.
  { intros x. rewrite Hls, detachAll_elem_of. split; intros [Hx Hall].
    - split; [done|]. intros k l' Hk. apply Hall. by apply elem_of_map_to_list.
    - split; [done|]. intros k l' Hk%elem_of_map_to_list. by apply Hall. }
  pose proof (eventTypeOfKey_key e s He) as Hty.
  split_and!; try done.
  - apply eventTypeOfKey_prefix.
  - intros ls. unfold detachAll. simpl. by rewrite Hty.
  - intros [_ Hall]%Hmem. apply (Hall (key e s) l Hl). by rewrite Hty.
  - intros st0 h Hreach Hd.
    pose proof (Reachable_Sound _ _ Hreach) as HS.
    destruct (delegate_appends impl e s h st0 st HS Hd)
      as (kept & Hls0 & _ & Hfresh & _).
    apply delegate_Normal in Hd as (_ & _ & _ & Hreg & _).
    unfold registry in Hl. rewrite Hreg in Hl. simpl in Hl.
    rewrite lookup_insert_eq in Hl. injection Hl as <-.
    split_and!; [done| |].
    + rewrite Hls0. apply elem_of_app. right. by left.
    + intros ty. rewrite Hls0.
      intros [Hin|Hin%list_elem_of_singleton]%elem_of_app; [|congruence].
      by destruct (Hfresh ty).
Qed.

End Teardown.

(** ** One physical listener per registered pair *)

Section PerPair.

Implicit Types (st : State) (impl : Impl) (l : Listener).

Lemma NoDup_all_equal_length {A} (xs : list A) (a : A) :
  NoDup xs → (∀ x, x ∈ xs → x = a) → (length xs ≤ 1)%nat.
Proof.
  intros Hnd Hall. destruct xs as [|x [|y xs]]; simpl; [lia|lia|].
  exfalso. apply NoDup_cons in Hnd as [Hx _]. apply Hx.
  rewrite (Hall x) by (by left). rewrite (Hall y) at 1; [by left|].
  right. by left.
Qed.

Lemma Tight_listenersForPair st e s :
  Tight st → NoDup (element_listeners st) →
  (length (listenersForPair e s st) ≤ 1)%nat ∧
  (length (listenersForPair e s st) = 1%nat ↔
   colonFree e = true ∧ is_Some (registry st !! key e s)).
Proof.
  intros HT Hnd.
  assert (∀ x, x ∈ listenersForPair e s st →
               colonFree e = true ∧ registry st !! key e s = Some x.2 ∧ x.1 = e)
    as Hel.
  { intros [ty l] [[Hty Hsel] Hx]%list_elem_of_filter. simpl in *. subst ty s.
    destruct (tight_attached _ HT _ Hx) as [Hc Hr]. done. }
  assert (length (listenersForPair e s st) ≤ 1)%nat as Hle.
  { destruct (registry st !! key e s) as [l0|] eqn:E0.
    - apply (NoDup_all_equal_length _ (e, l0)).
      + by apply NoDup_filter.
      + intros [ty l] Hx. destruct (Hel _ Hx) as (_ & Hr & Hty).
        simpl in *. congruence.
    - destruct (listenersForPair e s st) as [|x xs] eqn:Ex; simpl; [lia|].
      destruct (Hel x) as (_ & Hr & _); [by left|]. congruence. }
  split; [done|]. split.
  - intros Hlen. destruct (listenersForPair e s st) as [|x xs] eqn:Ex; [done|].
    destruct (Hel x) as (Hc & Hr & _); [by left|]. eauto.
  - intros [Hc [l0 Hl0]].
    destruct (Tight_entry st e s l0 HT Hc Hl0) as [Hsel Hin].
    assert ((e, l0) ∈ listenersForPair e s st) as Hx.
    { apply list_elem_of_filter. done. }
    destruct (listenersForPair e s st); [by apply elem_of_nil in Hx|].
    simpl in *. lia.
Qed.

Lemma Tight_listenersFor st e :
  Tight st → NoDup (element_listeners st) →
  map snd (listenersFor e st) ≡ₚ map snd (entriesFor e st).
Proof.
  intros HT Hnd. apply NoDup_Permutation.
  - apply (NoDup_fmap_2_strong snd).
    + intros [ty1 l1] [ty2 l2] [H1 _]%list_elem_of_filter
        [H2 _]%list_elem_of_filter. simpl in *. congruence.
    + by apply NoDup_filter.
  - apply (NoDup_fmap_2_strong snd).
    + intros [k1 l1] [k2 l2] [H1 Hk1]%list_elem_of_filter
        [H2 Hk2]%list_elem_of_filter Heq. simpl in *. subst l2.
      apply elem_of_map_to_list in Hk1, Hk2.
      destruct (tight_stored _ HT _ _ Hk1) as (ty1 & Hc1 & -> & _).
      destruct (tight_stored _ HT _ _ Hk2) as (ty2 & Hc2 & -> & _).
      rewrite eventTypeOfKey_key in H1, H2 by done. congruence.
    + apply NoDup_filter, NoDup_map_to_list.
  - intros l. rewrite !list_elem_of_In, !in_map_iff. split.
    + intros ([ty l'] & Hl & Hin). simpl in Hl. subst l'.
      apply list_elem_of_In, list_elem_of_filter in Hin as [Hty Hin].
      simpl in Hty. subst ty.
      destruct (tight_attached _ HT _ Hin) as [Hc Hr].
      exists (key e (l_selector l), l). split; [done|].
      apply list_elem_of_In, list_elem_of_filter. split.
      * simpl. by apply eventTypeOfKey_key.
      * by apply elem_of_map_to_list.
    + intros ([k l'] & Hl & Hin). simpl in Hl. subst l'.
      apply list_elem_of_In, list_elem_of_filter in Hin as [Hty Hin].
      simpl in Hty. apply elem_of_map_to_list in Hin.
      destruct (tight_stored _ HT _ _ Hin) as (ty & Hc & -> & Hx).
      rewrite eventTypeOfKey_key in Hty by done. subst ty.
      exists (e, l). split; [done|].
      apply list_elem_of_In, list_elem_of_filter. done.
Qed.

(** C8, as the code has it.  From a fresh controller and through operations
    on colon-free event types, each registered (event type, selector) pair
    has exactly one physical listener attached and no other pair has any;
    an event type therefore carries as many physical listeners as there are
    selectors registered for it, namely the closures stored under its keys. *)
Theorem one_listener_per_registered_pair impl ops this root st :
  forallb colonFreeOp ops = true →
  run impl ops (useDelegation impl this root) = Normal st →
  (∀ e s, (length (listenersForPair e s st) ≤ 1)%nat) ∧
  (∀ e s, length (listenersForPair e s st) = 1%nat ↔
          colonFree e = true ∧ is_Some (registry st !! key e s)) ∧
  (∀ e, map snd (listenersFor e st) ≡ₚ map snd (entriesFor e st)) ∧
  (∀ e, length (listenersFor e st) = length (entriesFor e st)).
Proof.
  intros Hops Hrun.
  assert (Tight st) as HT.
  { eapply run_Tight; [exact Hops|exact Hrun|apply useDelegation_Tight]. }
  assert (NoDup (element_listeners st)) as Hnd.
  { eapply sound_nodup, Reachable_Sound, Reachable_run; [|exact Hrun].
    apply reach_init. }
  split_and!.
  - intros e s. by apply Tight_listenersForPair.
  - intros e s. by apply Tight_listenersForPair.
  - intros e. by apply Tight_listenersFor.
  - intros e. pose proof (Tight_listenersFor st e HT Hnd) as HP.
    apply Permutation_length in HP. by rewrite !length_map in HP.
Qed.

End PerPair.

(** ** The fixture of the unit tests, run *)

Section Fixture.

Implicit Types (impl : Impl).

Example click_on_save_button impl :
  dispatchEvent simpleMatches page
    (ctrlAfter impl [Delegate "click" ".btn" 1]) saveBtn (click 0 (Some saveBtn))
  = [Invoked (mkCall 1 7 (click 0 (Some saveBtn)) saveBtn)].
Proof. by destruct impl. Qed.

Example click_on_nested_span impl :
  dispatchEvent simpleMatches page
    (ctrlAfter impl [Delegate "click" ".nested" 1]) nestedSpan
    (click 0 (Some nestedSpan))
  = [Invoked (mkCall 1 7 (click 0 (Some nestedSpan)) nestedDiv)].
Proof. by destruct impl. Qed.

Example click_on_input_ignored impl :
  dispatchEvent simpleMatches page
    (ctrlAfter impl [Delegate "click" ".btn" 1]) firstInput
    (click 0 (Some firstInput))
  = [NoEffect].
Proof. by destruct impl. Qed.

Example click_outside_scope impl :
  dispatchEvent simpleMatches page
    (ctrlAfter impl [Delegate "click" ".btn" 1]) externalBtn
    (click 0 (Some externalBtn))
  = [].
Proof. by destruct impl. Qed.

(** [closest] climbs past the root: the body carries the class [card]. *)
Example match_above_root impl :
  closest simpleMatches page ".card" saveBtn = Some bodyRef ∧
  dispatchEvent simpleMatches page
    (ctrlAfter impl [Delegate "click" ".card" 1]) saveBtn
    (click 0 (Some saveBtn))
  = [NoEffect].
Proof. by destruct impl. Qed.

Example undelegate_then_click impl :
  dispatchEvent simpleMatches page
    (ctrlAfter impl [Delegate "click" ".btn" 1; Undelegate "click" ".btn"])
    saveBtn (click 0 (Some saveBtn))
  = [].
Proof. by destruct impl. Qed.

Example page_wellFormed : wellFormed page.
Proof. by apply wellFormedb_wellFormed. Qed.

(** The text inside the Save button resolves to the button. *)
Example click_on_button_text :
  head (elementAncestors page saveText) = Some saveBtn ∧
  delegatedHandler_function simpleMatches page
    (ctrlAfter FunctionBased [Delegate "click" ".btn" 1]) ".btn" 1
    (click 0 (Some saveText))
  = Invoked (mkCall 1 7 (click 0 (Some saveText)) saveBtn).
Proof. done. Qed.

Example split_first_colon :
  split ":"%char "custom:event:.btn" = ["custom"; "event"; ".btn"] ∧
  eventTypeOfKey "custom:event:.btn" = "custom" ∧
  eventTypeOfKey "click:input:checked" = "click" ∧
  eventTypeOfKey "" = "".
Proof. done. Qed.

End Fixture.

(** ** Where the code departs from the registry's contract *)

Section Departures.

Implicit Types (impl : Impl).

(** C2. A listener registered for an event type that contains a colon
    survives [undelegateAll]: the map is empty afterwards, yet the closure is
    still attached for ["custom:event"] and still calls the handler. *)
Theorem undelegateAll_leaks_namespaced_listener impl :
  let dh := mkListener 0 impl ".btn" 1 in
  let ev := mkEvent 0 "custom:event" (Some saveBtn) true in
  ∃ st, run impl [Delegate "custom:event" ".btn" 1; UndelegateAll] (ctrl impl)
        = Normal st ∧
        map_to_list (registry st) = [] ∧
        element_listeners st = [("custom:event", dh)] ∧
        eventTypeOfKey (key "custom:event" ".btn") = "custom" ∧
        dispatchEvent simpleMatches page st saveBtn ev
        = [Invoked (mkCall 1 7 ev saveBtn)].
Proof. destruct impl; eexists; split_and!; reflexivity. Qed.

(** The same for every event type that contains a colon. *)
Lemma undelegateAll_leaks_colon_types impl this root e s h st1 st2 :
  colonFree e = false →
  delegate impl e s h (useDelegation impl this root) = Normal st1 →
  undelegateAll impl st1 = Normal st2 →
  registry st2 = ∅ ∧ element_listeners st2 = [(e, mkListener 0 impl s h)].
Proof.
  intros He Hd Hu.
  apply delegate_Normal in Hd as (_ & _ & _ & Hreg & Hls).
  apply undelegateAll_Normal in Hu as (_ & _ & _ & Hreg2 & Hls2).
  split; [done|].
  assert (registry st1 = {[key e s := mkListener 0 impl s h]}) as Hr1.
  { unfold registry at 1. rewrite Hreg. simpl.
    unfold registry. destruct impl; simpl; apply insert_empty. }
  assert (element_listeners st1 = [(e, mkListener 0 impl s h)]) as Hl1.
  { rewrite Hls. unfold registry. by destruct impl. }
  rewrite Hls2, Hr1, Hl1, map_to_list_singleton.
  unfold detachAll, removeEventListener. simpl.
  rewrite filter_cons_True; [done|].
  intros [= Heq].
  destruct (eventTypeOfKey_prefix (key e s)) as [Hc _]. congruence.
Qed.

(** On colon-free event types the registry and the listener list agree
    after every sequence of operations, and teardown empties both. *)
Lemma colon_free_registry_mirrors_listeners impl ops this root st :
  forallb colonFreeOp ops = true →
  run impl ops (useDelegation impl this root) = Normal st →
  (∀ x, x ∈ element_listeners st ↔
        colonFree x.1 = true ∧ registry st !! keyOf x = Some x.2) ∧
  (∀ st', undelegateAll impl st = Normal st' →
          element_listeners st' = [] ∧ registry st' = ∅).
Proof.
  intros Hops Hrun.
  assert (Tight st) as HT.
  { eapply run_Tight; [exact Hops|exact Hrun|apply useDelegation_Tight]. }
  split.
  - intros x. split; [by apply tight_attached|].
    intros [Hc Hr]. destruct (tight_stored _ HT _ _ Hr) as (ty & Hty & Hk & Hin).
    unfold keyOf in Hk. apply key_inj in Hk as [Heq _]; [|done..].
    destruct x as [ty' l]. simpl in *. by subst.
  - intros st' Hu. split; [by eapply undelegateAll_Tight_nil|].
    by apply undelegateAll_Normal in Hu as (_ & _ & _ & ? & _).
Qed.

(** C5. Two different pairs with one key: the second [delegate] takes the
    first pair's entry for its own, fails to detach it (wrong event type)
    and overwrites it, so the first closure stays attached without entry. *)
Theorem key_conflates_pairs_with_colon impl :
  let first := mkListener 0 impl "a:hover" 1 in
  let second := mkListener 1 impl "hover" 2 in
  ("click", "a:hover") ≠ ("click:a", "hover") ∧
  key "click" "a:hover" = key "click:a" "hover" ∧
  ∃ st, run impl [Delegate "click" "a:hover" 1; Delegate "click:a" "hover" 2]
          (ctrl impl) = Normal st ∧
        map_to_list (registry st) = [("click:a:hover", second)] ∧
        element_listeners st = [("click", first); ("click:a", second)].
Proof. destruct impl; split_and!; try done; eexists; split_and!; reflexivity. Qed.

(** C6. The object mixin on a click whose target is the text inside the
    Save button: its closure throws instead of calling the handler with the
    button, which is what the function-based closure does. *)
Theorem mixin_throws_on_text_node_target :
  let ev := click 0 (Some saveText) in
  nodeAt page saveText = Some (text "Save") ∧
  parentElement page saveText = Some saveBtn ∧
  dispatchEvent simpleMatches page
    (ctrlAfter ObjectMixin [Delegate "click" ".btn" 1]) saveBtn ev
  = [Threw TypeError] ∧
  dispatchEvent simpleMatches page
    (ctrlAfter FunctionBased [Delegate "click" ".btn" 1]) saveBtn ev
  = [Invoked (mkCall 1 7 ev saveBtn)].
Proof. split_and!; reflexivity. Qed.

(** C8, as stated, fails: two selectors for one event type are two closures
    attached for that type. *)
Lemma two_selectors_two_listeners :
  ¬ (∀ impl ops st, run impl ops (ctrl impl) = Normal st → onePerEventType st).
Proof.
  intros H.
  specialize (H FunctionBased
                [Delegate "click" ".btn" 1; Delegate "click" ".nested" 2]
                _ eq_refl "click").
  vm_compute in H. lia.
Qed.

End Departures.

(** ** The theorems at the fixture *)

Section Instances.

(** A click on the span nested in [div.nested], some operations after
    [delegate('click', '.nested', h)]. *)
Lemma delegate_invokes_handler_once_witness :
  Invoked (mkCall 1 7 (click 0 (Some nestedSpan)) nestedDiv)
    ∈ dispatchEvent simpleMatches page
        (ctrlAfter FunctionBased
           [Delegate "click" ".nested" 1; Delegate "click" ".btn" 2;
            Undelegate "input" "input"])
        nestedSpan (click 0 (Some nestedSpan)).
Proof.
  destruct (delegate_invokes_handler_once simpleMatches page FunctionBased
              (ctrl FunctionBased)
              (ctrlAfter FunctionBased [Delegate "click" ".nested" 1])
              (ctrlAfter FunctionBased
                 [Delegate "click" ".nested" 1; Delegate "click" ".btn" 2;
                  Undelegate "input" "input"])
              "click" ".nested" 1
              [Delegate "click" ".btn" 2; Undelegate "input" "input"]
              nestedSpan (click 0 (Some nestedSpan)) nestedSpan nestedDiv)
    as (t & Hcl & _ & _ & _ & _ & _ & _ & _ & _ & _ & Hd & _);
    [apply reach_init|reflexivity..|].
  vm_compute in Hcl. injection Hcl as <-. exact Hd.
Defined.

(** [delegate('click', '.btn', h1)], another registration, then
    [delegate('click', '.btn', h2)]: whatever follows, the first closure
    never runs again. *)
Lemma delegate_again_replaces_witness :
  mkListener 0 FunctionBased ".btn" 1
    ∉ invoked (ctrlAfter FunctionBased
                 [Delegate "click" ".btn" 1; Delegate "click" ".nested" 3;
                  Delegate "click" ".btn" 2;
                  Delegate "click" ".nested" 1; Undelegate "click" ".btn"])
              saveBtn (click 0 (Some saveBtn)).
Proof.
  destruct (delegate_again_replaces simpleMatches page FunctionBased
              (ctrl FunctionBased)
              (ctrlAfter FunctionBased [Delegate "click" ".btn" 1])
              (ctrlAfter FunctionBased
                 [Delegate "click" ".btn" 1; Delegate "click" ".nested" 3])
              (ctrlAfter FunctionBased
                 [Delegate "click" ".btn" 1; Delegate "click" ".nested" 3;
                  Delegate "click" ".btn" 2])
              "click" ".btn" 1 2 [Delegate "click" ".nested" 3])
    as (_ & _ & _ & _ & _ & _ & _ & Hnever & _);
    [apply reach_init|reflexivity..|].
  apply (Hnever [Delegate "click" ".nested" 1; Undelegate "click" ".btn"]).
  reflexivity.
Defined.

(** A click inside the root with a selector that only the body matches. *)
Lemma match_outside_root_no_effect_witness :
  delegatedHandler simpleMatches page (ctrl ObjectMixin)
    (mkListener 0 ObjectMixin ".card" 1) (click 0 (Some saveBtn)) = NoEffect.
Proof.
  apply (proj1 (match_outside_root_no_effect simpleMatches page
                  (ctrl ObjectMixin) (mkListener 0 ObjectMixin ".card" 1)
                  (click 0 (Some saveBtn))) bodyRef); reflexivity.
Defined.

Lemma null_target_no_effect_witness :
  delegatedHandler simpleMatches page (ctrl ObjectMixin)
    (mkListener 0 ObjectMixin ".btn" 1) (click 0 None) = NoEffect.
Proof.
  apply (proj1 (null_target_no_effect simpleMatches page (ctrl ObjectMixin)
                  (mkListener 0 ObjectMixin ".btn" 1) (click 0 None) rootRef
                  eq_refl)).
Defined.

Lemma closures_agree_on_element_targets_witness :
  delegatedHandler_mixin simpleMatches page (ctrl ObjectMixin) ".btn" 1
    (click 0 (Some saveBtn))
  = delegatedHandler_function simpleMatches page (ctrl ObjectMixin) ".btn" 1
      (click 0 (Some saveBtn)).
Proof.
  apply (proj1 (closures_agree_on_element_targets simpleMatches page
                  (ctrl ObjectMixin) ".btn" 1 (click 0 (Some saveBtn)) saveBtn
                  eq_refl eq_refl)).
Defined.

(** Teardown after [delegate('click', 'input:checked', h)]: the selector may
    contain colons, the event type is read back as ['click']. *)
Lemma undelegateAll_detaches_by_key_prefix_witness :
  ("click", mkListener 0 FunctionBased "input:checked" 1)
    ∉ element_listeners
        (ctrlAfter FunctionBased
           [Delegate "click" "input:checked" 1; UndelegateAll]).
Proof.
  destruct (undelegateAll_detaches_by_key_prefix FunctionBased
              (ctrlAfter FunctionBased [Delegate "click" "input:checked" 1])
              (ctrlAfter FunctionBased
                 [Delegate "click" "input:checked" 1; UndelegateAll])
              "click" "input:checked"
              (mkListener 0 FunctionBased "input:checked" 1))
    as (_ & _ & _ & _ & Hgone & _); [reflexivity..|exact Hgone].
Defined.

Lemma one_listener_per_registered_pair_witness :
  length (listenersFor "click"
            (ctrlAfter ObjectMixin
               [Delegate "click" ".btn" 1; Delegate "click" ".nested" 2;
                Delegate "click" ".btn" 3; Delegate "input" "input" 4]))
  = length (entriesFor "click"
              (ctrlAfter ObjectMixin
                 [Delegate "click" ".btn" 1; Delegate "click" ".nested" 2;
                  Delegate "click" ".btn" 3; Delegate "input" "input" 4])).
Proof.
  destruct (one_listener_per_registered_pair ObjectMixin
              [Delegate "click" ".btn" 1; Delegate "click" ".nested" 2;
               Delegate "click" ".btn" 3; Delegate "input" "input" 4]
              7 rootRef
              (ctrlAfter ObjectMixin
                 [Delegate "click" ".btn" 1; Delegate "click" ".nested" 2;
                  Delegate "click" ".btn" 3; Delegate "input" "input" 4]))
    as (_ & _ & _ & Hcount); [reflexivity..|apply Hcount].
Defined.

End Instances.

(** ** Further properties of the operations *)

Section Operations.

Implicit Types (st : State) (impl : Impl) (l : Listener).

(** X1. An operation throws exactly when it is the function-based one and
    the controller has no map; the object mixin never throws.  From the
    controller that [useDelegation] sets up, no sequence of operations
    throws. *)
Theorem operations_throw_iff_map_missing impl op st :
  (step impl op st = Abrupt TypeError ↔
   impl = FunctionBased ∧ delegatedEvents st = None) ∧
  (∀ this root ops,
     ∃ st', run impl ops (useDelegation impl this root) = Normal st' ∧
            Reachable impl st').
Proof.
  split.
  - destruct op as [e s h|e s|]; simpl;
      unfold delegate, undelegate, undelegateAll;
      destruct impl, (delegatedEvents st) as [m|]; simpl;
      try (destruct (m !! key e s));
      split; try done; try (by intros [? ?]).
  - intros this root ops.
    destruct (run_total impl ops (useDelegation impl this root)) as [st' Hrun];
      [apply reach_init|].
    exists st'. split; [done|].
    eapply Reachable_run; [apply reach_init|exact Hrun].
Qed.

(** X2. [undelegate] leaves no entry under the key, a second [undelegate]
    of the same pair changes nothing, and when there was no entry in the
    first place the controller is returned as it was. *)
Theorem undelegate_idempotent impl e s st st1 :
  undelegate impl e s st = Normal st1 →
  registry st1 !! key e s = None ∧
  undelegate impl e s st1 = Normal st1 ∧
  (registry st !! key e s = None → st1 = st).
Proof.
  intros Hu. pose proof (undelegate_Normal _ _ _ _ _ Hu) as (_ & _ & _ & H).
  destruct (registry st !! key e s) as [old|] eqn:Eo.
  - destruct H as [Hreg _].
    assert (registry st1 !! key e s = None) as Hnone.
    { unfold registry. rewrite Hreg. simpl. apply lookup_delete_eq. }
    split_and!; [done| |done].
    unfold undelegate. rewrite Hreg. unfold registry in Hnone.
    rewrite Hreg in Hnone. simpl in Hnone. rewrite Hnone. by destruct impl.
  - subst st1. done.
Qed.

(** X3. Registering a pair that has no entry and unregistering it again
    gives back the registry and the listener list; only the allocator of
    closure identities has moved on. *)
Theorem delegate_undelegate_round_trip impl e s h st st1 st2 :
  Reachable impl st →
  registry st !! key e s = None →
  delegate impl e s h st = Normal st1 →
  undelegate impl e s st1 = Normal st2 →
  registry st2 = registry st ∧
  element_listeners st2 = element_listeners st ∧
  this_id st2 = this_id st ∧ element st2 = element st ∧
  next_closure st2 = S (next_closure st).
Proof.
  intros Hreach Hnone Hd Hu.
  pose proof (Reachable_Sound _ _ Hreach) as HS.
  apply delegate_Normal in Hd as (Hthis & Hroot & Hnext & Hreg & Hls).
  rewrite Hnone in Hls.
  set (dh := mkListener (next_closure st) impl s h) in *.
  assert ((e, dh) ∉ element_listeners st) as Hfresh.
  { by apply (next_closure_fresh impl). }
  rewrite (addEventListener_fresh _ _ _ Hfresh) in Hls.
  apply undelegate_Normal in Hu as (Hthis2 & Hroot2 & Hnext2 & Hu).
  unfold registry at 1 2 in Hu. rewrite Hreg in Hu. simpl in Hu.
  rewrite lookup_insert_eq in Hu. destruct Hu as [Hreg2 Hls2].
  split_and!; try congruence.
  - unfold registry at 1. rewrite Hreg2. simpl. by apply delete_insert_id.
  - rewrite Hls2, Hls. unfold removeEventListener. rewrite filter_app.
    rewrite filter_cons_False, filter_nil, app_nil_r by (intros H; by apply H).
    by apply removeEventListener_absent.
Qed.

(** X4. [undelegateAll] leaves an empty registry, and a second
    [undelegateAll] changes nothing; on an empty registry it detaches
    nothing. *)
Theorem undelegateAll_idempotent impl st st1 :
  undelegateAll impl st = Normal st1 →
  registry st1 = ∅ ∧ size (registry st1) = 0%nat ∧
  undelegateAll impl st1 = Normal st1 ∧
  (registry st = ∅ → element_listeners st1 = element_listeners st).
Proof.
  intros Hu.
  pose proof (undelegateAll_Normal _ _ _ Hu) as (_ & _ & _ & Hreg & Hls).
  split_and!; [done|by rewrite Hreg| |].
  - unfold undelegateAll in *.
    destruct impl, (delegatedEvents st) as [m|] eqn:Em; simpl in *;
      try done; injection Hu as <-; simpl; rewrite ?Em;
      by rewrite ?map_to_list_empty.
  - intros He. rewrite Hls, He. by rewrite map_to_list_empty.
Qed.

End Operations.

(** ** Further properties of registration and dispatch *)

Section Lifecycle.

Variable matches : Node → NodeRef → string → bool.
Variable doc : Node.

Implicit Types (st : State) (impl : Impl) (ev : Event) (l : Listener).

(** The closures read the controller for [this] and [this.element] only. *)
Lemma delegatedHandler_frame st st' l ev :
  this_id st' = this_id st → element st' = element st →
  delegatedHandler matches doc st' l ev = delegatedHandler matches doc st l ev.
Proof.
  intros Ht Hr. rewrite !delegatedHandler_matchedTarget.
  destruct (matchedTarget matches doc l ev) as [[t|]|]; try done.
  unfold callIfContained. by rewrite Ht, Hr.
Qed.

(** X5. [undelegate] for a pair whose closure is still the entry of the key
    removes the entry and detaches the closure: the registry shrinks by
    one, every other listener stays, and the closure is not run by any
    later event whatever operations follow. *)
Theorem undelegate_detaches_registration impl st0 st1 st2 st3 e s h between :
  Reachable impl st0 →
  delegate impl e s h st0 = Normal st1 →
  run impl between st1 = Normal st2 →
  registry st2 !! key e s = Some (mkListener (next_closure st0) impl s h) →
  undelegate impl e s st2 = Normal st3 →
  let dh := mkListener (next_closure st0) impl s h in
  registry st3 = delete (key e s) (registry st2) ∧
  S (size (registry st3)) = size (registry st2) ∧
  (∀ x, x ∈ element_listeners st3 ↔ x ∈ element_listeners st2 ∧ x ≠ (e, dh)) ∧
  (∀ ty, (ty, dh) ∉ element_listeners st3) ∧
  (∀ ops st4 node ev, run impl ops st3 = Normal st4 →
                      dh ∉ invoked st4 node ev).
Proof.
  intros Hreach Hd Hrun Hlk Hu dh.
  destruct (delegated_closure_attached impl st0 st1 st2 e s h between
              Hreach Hd Hrun) as (_ & _ & _ & Hlt & [Hid Honly] & _).
  fold dh in Hlk, Hid, Honly.
  apply undelegate_Normal in Hu as (_ & _ & Hnext & Hu).
  rewrite Hlk in Hu. destruct Hu as [Hreg Hls].
  assert (registry st3 = delete (key e s) (registry st2)) as Hr3.
  { unfold registry at 1. by rewrite Hreg. }
  assert (∀ ty, (ty, dh) ∉ element_listeners st3) as Hgone.
  { intros ty. rewrite Hls. intros [Hne Hin]%elem_of_removeEventListener.
    apply Honly in Hin. by subst ty. }
  split_and!; try done.
  - rewrite Hr3. rewrite <- (insert_delete_id (registry st2) (key e s) dh Hlk) at 2.
    rewrite map_size_insert_None by apply lookup_delete_eq. done.
  - intros x. rewrite Hls, elem_of_removeEventListener. split; intros [? ?]; done.
  - intros ops st4 node ev Hrun4 [_ Hin]%elem_of_invoked.
    assert (detached dh st3) as Hdet.
    { split; [rewrite Hnext; exact Hid|]. intros ty Hty. by apply (Hgone ty). }
    destruct (run_attachedOnlyFor impl ops _ dh st3 st4 Hrun4 Hdet) as [_ Hnot].
    by apply (Hnot (ev_type ev)).
Qed.

(** X6. After operations on colon-free event types, [undelegateAll] leaves
    no entry and no listener, so no event runs any closure afterwards. *)
Theorem teardown_silences_dispatch impl ops this root st st' :
  forallb colonFreeOp ops = true →
  run impl ops (useDelegation impl this root) = Normal st →
  undelegateAll impl st = Normal st' →
  registry st' = ∅ ∧ element_listeners st' = [] ∧
  (∀ node ev, invoked st' node ev = [] ∧
              dispatchEvent matches doc st' node ev = []).
Proof.
  intros Hops Hrun Hu.
  assert (Tight st) as HT.
  { eapply run_Tight; [exact Hops|exact Hrun|apply useDelegation_Tight]. }
  pose proof (undelegateAll_Tight_nil impl st st' HT Hu) as Hnil.
  apply undelegateAll_Normal in Hu as (_ & _ & _ & Hreg & _).
  split_and!; [done|done|].
  intros node ev. unfold dispatchEvent, invoked. rewrite Hnil.
  by destruct (reachesRoot st' node ev).
Qed.

(** X7. The wrapped [disconnect] of the function-based version hands the
    original [disconnect] a controller with an empty registry; after
    operations on colon-free event types nothing is attached to it any
    more.  Without a map the teardown throws and the original is not
    reached. *)
Theorem disconnect_tears_down_first originalDisconnect st :
  (∀ ops this root,
     forallb colonFreeOp ops = true →
     run FunctionBased ops (useDelegation FunctionBased this root) = Normal st →
     ∃ st', disconnect originalDisconnect st = originalDisconnect st' ∧
            this_id st' = this_id st ∧ element st' = element st ∧
            delegatedEvents st' = Some ∅ ∧ element_listeners st' = []) ∧
  (is_Some (delegatedEvents st) →
   ∃ st', disconnect originalDisconnect st = originalDisconnect st' ∧
          delegatedEvents st' = Some ∅) ∧
  (delegatedEvents st = None →
   disconnect originalDisconnect st = Abrupt TypeError).
Proof.
  split_and!.
  - intros ops this root Hops Hrun.
    assert (Tight st) as HT.
    { eapply run_Tight; [exact Hops|exact Hrun|apply useDelegation_Tight]. }
    destruct (step_total FunctionBased UndelegateAll st) as [st' Hu].
    { eapply sound_map, Reachable_Sound, Reachable_run; [|exact Hrun].
      apply reach_init. }
    change (undelegateAll FunctionBased st = Normal st') in Hu.
    exists st'. unfold disconnect. rewrite Hu.
    pose proof (undelegateAll_Tight_nil _ st st' HT Hu) as Hnil.
    split_and!; [done| | | |done].
    + by apply undelegateAll_Normal in Hu as (? & _).
    + by apply undelegateAll_Normal in Hu as (_ & ? & _).
    + unfold undelegateAll in Hu. destruct (delegatedEvents st); [|done].
      by injection Hu as <-.
  - intros [m Hm]. unfold disconnect, undelegateAll. rewrite Hm. eauto.
  - intros Hm. unfold disconnect, undelegateAll. by rewrite Hm.
Qed.

(** X8. Whatever a dispatch calls is sound: a call comes from a listener
    attached for the event's type, goes to that listener's handler with the
    controller as [this] and the event itself, and its target is an element
    that matches the listener's selector, lies inside the root, and is an
    inclusive ancestor of the event's target. *)
Theorem dispatch_calls_are_sound st node ev c :
  Invoked c ∈ dispatchEvent matches doc st node ev →
  ∃ l o,
    reachesRoot st node ev = true ∧
    (ev_type ev, l) ∈ element_listeners st ∧
    ev_target ev = Some o ∧
    call_handler c = l_handler l ∧ call_this c = this_id st ∧
    call_event c = ev ∧
    closest matches doc (l_selector l) o = Some (call_target c) ∧
    isElement doc (call_target c) = true ∧
    matches doc (call_target c) (l_selector l) = true ∧
    contains (element st) (call_target c) = true ∧
    contains (call_target c) o = true.
Proof.
  unfold dispatchEvent. intros Hin.
  apply list_elem_of_In, in_map_iff in Hin as (l & Hcall & Hl).
  apply list_elem_of_In, elem_of_invoked in Hl as [Hr Hatt].
  apply delegatedHandler_Invoked_inv in Hcall as (o & t & Ho & Hcl & Hct & ->).
  destruct (closest_Some_inv matches doc _ _ _ Hcl) as (Hto & Het & Hmt).
  exists l, o. simpl. split_and!; done.
Qed.

(** X9. [delegate] and [undelegate] for one event type leave the events of
    every other type alone: the same closures run, with the same outcome. *)
Theorem other_event_types_unaffected impl op e st st' node ev :
  step impl op st = Normal st' →
  opEventType op = Some e →
  ev_type ev ≠ e →
  invoked st' node ev = invoked st node ev ∧
  dispatchEvent matches doc st' node ev = dispatchEvent matches doc st node ev.
Proof.
  intros Hs Hop Hne.
  pose proof (step_frame _ _ _ _ Hs) as (Hthis & Hroot & _).
  assert (filter (λ x, x.1 = ev_type ev) (element_listeners st')
          = filter (λ x, x.1 = ev_type ev) (element_listeners st)) as Hf.
  { assert (∀ old ls, filter (λ x : string * Listener, x.1 = ev_type ev)
                        (removeEventListener e old ls)
                      = filter (λ x, x.1 = ev_type ev) ls) as Hrem.
    { intros old ls. unfold removeEventListener.
      induction ls as [|[ty l] ls IH]; [done|].
      destruct (decide ((ty, l) = (e, old))) as [[= -> ->]|Hx].
      - rewrite filter_cons_False by (intros H; by apply H).
        rewrite (filter_cons_False _ (e, old)) by (simpl; congruence). done.
      - rewrite filter_cons_True by done.
        destruct (decide (ty = ev_type ev)) as [Hty|Hty].
        + rewrite !filter_cons_True by done. by rewrite IH.
        + rewrite !filter_cons_False by done. done. }
    destruct op as [e' s h|e' s|]; simpl in Hs, Hop; [| |done];
      injection Hop as ->.
    - apply delegate_Normal in Hs as (_ & _ & _ & _ & ->).
      unfold addEventListener. case_bool_decide.
      + destruct (registry st !! key e s); [apply Hrem|done].
      + rewrite filter_app, filter_cons_False, filter_nil, app_nil_r
          by (simpl; congruence).
        destruct (registry st !! key e s); [apply Hrem|done].
    - apply undelegate_Normal in Hs as (_ & _ & _ & Hs).
      destruct (registry st !! key e s); [|by subst].
      destruct Hs as [_ ->]. apply Hrem. }
  assert (invoked st' node ev = invoked st node ev) as Hinv.
  { unfold invoked, reachesRoot. by rewrite Hroot, Hf. }
  split; [done|]. unfold dispatchEvent. rewrite Hinv.
  apply map_ext. intros l. by apply delegatedHandler_frame.
Qed.

End Lifecycle.

(** ** Further invariants *)

Section Bookkeeping.

Implicit Types (st : State) (impl : Impl) (ev : Event) (l : Listener).

Lemma filter_always {A} (P : A → Prop) `{∀ x, Decision (P x)} (xs : list A) :
  (∀ x, P x) → filter P xs = xs.
Proof.
  intros HP. induction xs as [|x xs IH]; [done|].
  rewrite filter_cons_True by done. by rewrite IH.
Qed.

Lemma invoked_after_removal e (old : Listener) (ls : list (string * Listener)) :
  map snd (filter (λ x, x.1 = e) (removeEventListener e old ls))
  = filter (λ l, Some old ≠ Some l) (map snd (filter (λ x, x.1 = e) ls)).
Proof.
  unfold removeEventListener. induction ls as [|[ty l] ls IH]; [done|].
  destruct (decide (ty = e)) as [->|Hty].
  - rewrite (filter_cons_True (λ x, x.1 = e)) by done. simpl.
    destruct (decide (l = old)) as [->|Hl].
    + rewrite filter_cons_False by (intros H; by apply H).
      rewrite filter_cons_False by (intros H; by apply H). apply IH.
    + rewrite filter_cons_True by congruence.
      rewrite filter_cons_True by done. simpl.
      rewrite filter_cons_True by congruence. by rewrite IH.
  - rewrite filter_cons_True by congruence.
    rewrite !filter_cons_False by done. apply IH.
Qed.

(** X10. After [delegate], an event of that type runs the closures that ran
    before, in their order and without the replaced one, and then the new
    closure: a registration always goes to the end of the dispatch order,
    also when it replaces an earlier one. *)
Theorem delegate_runs_last impl e s h st st' node ev :
  Reachable impl st →
  delegate impl e s h st = Normal st' →
  ev_type ev = e →
  reachesRoot st node ev = true →
  invoked st' node ev =
    (filter (λ l, registry st !! key e s ≠ Some l) (invoked st node ev)
       ++ [mkListener (next_closure st) impl s h])%list.
Proof.
  intros Hreach Hd He Hr.
  pose proof (Reachable_Sound _ _ Hreach) as HS.
  pose proof (delegate_Normal _ _ _ _ _ _ Hd) as (_ & Hroot & _ & _ & Hls).
  set (dh := mkListener (next_closure st) impl s h) in *.
  assert (∀ ty, (ty, dh) ∉ element_listeners st) as Hfresh.
  { intros ty. by apply (next_closure_fresh impl). }
  assert (reachesRoot st' node ev = true) as Hr'.
  { unfold reachesRoot in *. by rewrite Hroot. }
  unfold invoked. rewrite Hr, Hr', He.
  destruct (registry st !! key e s) as [old|] eqn:Eo.
  - rewrite Hls, addEventListener_fresh.
    2:{ intros [_ Hin]%elem_of_removeEventListener. by apply (Hfresh e). }
    rewrite filter_app, map_app, filter_cons_True by done. simpl.
    by rewrite invoked_after_removal.
  - rewrite Hls, addEventListener_fresh by apply Hfresh.
    rewrite filter_app, map_app, filter_cons_True by done. simpl.
    by rewrite (filter_always (λ l : Listener, None ≠ Some l)).
Qed.

(** X11. After operations on colon-free event types the registry has as
    many entries as listeners are attached: the pairs (key, closure) of
    the attached listeners are the entries of the map. *)
Theorem registry_size_is_listener_count impl ops this root st :
  forallb colonFreeOp ops = true →
  run impl ops (useDelegation impl this root) = Normal st →
  map (λ x, (keyOf x, x.2)) (element_listeners st)
    ≡ₚ map_to_list (registry st) ∧
  size (registry st) = length (element_listeners st).
Proof.
  intros Hops Hrun.
  assert (Tight st) as HT.
  { eapply run_Tight; [exact Hops|exact Hrun|apply useDelegation_Tight]. }
  assert (NoDup (element_listeners st)) as Hnd.
  { eapply sound_nodup, Reachable_Sound, Reachable_run; [|exact Hrun].
    apply reach_init. }
  assert (map (λ x, (keyOf x, x.2)) (element_listeners st)
            ≡ₚ map_to_list (registry st)) as HP.
  { apply NoDup_Permutation.
    - apply (NoDup_fmap_2_strong (λ x, (keyOf x, x.2))); [|done].
      intros [ty1 l1] [ty2 l2] H1 H2 [= Hk ->].
      destruct (tight_attached _ HT _ H1) as [Hc1 _].
      destruct (tight_attached _ HT _ H2) as [Hc2 _].
      unfold keyOf in Hk. simpl in *.
      by apply key_inj in Hk as [-> _].
    - apply NoDup_map_to_list.
    - intros [k l]. rewrite elem_of_map_to_list, list_elem_of_In, in_map_iff.
      split.
      + intros (x & [= <- <-] & Hx%list_elem_of_In).
        by destruct (tight_attached _ HT _ Hx).
      + intros Hl. destruct (tight_stored _ HT _ _ Hl) as (ty & _ & -> & Hin).
        exists (ty, l). split; [done|]. by apply list_elem_of_In. }
  split; [done|].
  apply Permutation_length in HP. rewrite length_map in HP.
  by rewrite <- length_map_to_list.
Qed.

(** X12. In every reachable controller, colon or not, an entry of the
    registry is a closure of this implementation that is attached to the
    root, for an event type from which, with the closure's selector, its
    key is built; an event of that type that reaches the root runs it. *)
Theorem registry_entries_are_attached impl st k l :
  Reachable impl st →
  registry st !! k = Some l →
  ∃ ty, k = key ty (l_selector l) ∧
        (ty, l) ∈ element_listeners st ∧
        l_impl l = impl ∧
        ∀ node ev, ev_type ev = ty → reachesRoot st node ev = true →
                   l ∈ invoked st node ev.
Proof.
  intros Hreach Hl.
  assert (∃ ty, k = key ty (l_selector l) ∧ (ty, l) ∈ element_listeners st ∧
                l_impl l = impl) as (ty & Hk & Hin & Hi).
  { revert k l Hl. induction Hreach as [this root|st st' op Hreach IH Hs].
    - intros k l. unfold registry. destruct impl; simpl; by rewrite lookup_empty.
    - pose proof (Reachable_Sound _ _ Hreach) as HS.
      destruct op as [e s h|e s|]; simpl in Hs; intros k l.
      + apply delegate_Normal in Hs as (_ & _ & _ & Hreg & ->).
        unfold registry at 1. rewrite Hreg. simpl.
        destruct (decide (key e s = k)) as [<-|Hne].
        * rewrite lookup_insert_eq. intros [= <-]. exists e. simpl.
          split_and!; [done| |done]. apply elem_of_addEventListener. by right.
        * rewrite lookup_insert_ne by done. intros Hl.
          destruct (IH k l Hl) as (ty & Hk & Hin & Hi). exists ty.
          split_and!; [done| |done]. apply elem_of_addEventListener. left.
          destruct (registry st !! key e s) as [old|] eqn:Eo; [|done].
          apply elem_of_removeEventListener. split; [|done].
          intros [= _ ->]. apply Hne. by apply (sound_inj _ _ HS _ _ old).
      + apply undelegate_Normal in Hs as (_ & _ & _ & Hs).
        destruct (registry st !! key e s) as [old|] eqn:Eo; [|subst; apply IH].
        destruct Hs as [Hreg ->]. unfold registry at 1. rewrite Hreg. simpl.
        intros [Hne Hl]%lookup_delete_Some.
        destruct (IH k l Hl) as (ty & Hk & Hin & Hi). exists ty.
        split_and!; [done| |done].
        apply elem_of_removeEventListener. split; [|done].
        intros [= _ ->]. apply Hne. by apply (sound_inj _ _ HS _ _ old).
      + apply undelegateAll_Normal in Hs as (_ & _ & _ & -> & _).
        by rewrite lookup_empty. }
  exists ty. split_and!; try done.
  intros node ev He Hr. apply elem_of_invoked. split; [done|]. by rewrite He.
Qed.

Lemma colonFree_key (e s : string) : colonFree (key e s) = false.
Proof.
  unfold key. induction e as [|c r IH]; [done|].
  change (negb (Ascii.eqb c ":"%char) && colonFree (r +:+ ":" +:+ s) = false).
  rewrite IH. apply andb_false_r.
Qed.

(** X13. Reading the event type back from a key gives the event type the
    key was built from exactly when that has no colon.  Such a key belongs
    to no other pair with a colon-free event type, and for a fixed event
    type the selector is always recovered; a key built from an event type
    with a colon is also the key of another pair. *)
Theorem key_decodes_iff_colon_free (e s : string) :
  (eventTypeOfKey (key e s) = e ↔ colonFree e = true) ∧
  (∀ e' s', colonFree e = true → colonFree e' = true →
            key e s = key e' s' → e = e' ∧ s = s') ∧
  (∀ s', key e s = key e s' → s = s') ∧
  (colonFree e = false →
   ∃ e' s', (e', s') ≠ (e, s) ∧ key e' s' = key e s).
Proof.
  split_and!.
  - split; [|apply eventTypeOfKey_key].
    intros <-. apply eventTypeOfKey_prefix.
  - intros e' s'. apply key_inj.
  - intros s'. apply key_inj_selector.
  - intros He. destruct (eventTypeOfKey_prefix (key e s)) as [Hc [Hk|[rest Hk]]].
    + rewrite <- Hk, colonFree_key in Hc. done.
    + exists (eventTypeOfKey (key e s)), rest. split; [|done].
      intros [= Heq _]. congruence.
Qed.

End Bookkeeping.

(** ** The function-based version against the object mixin *)

Section Versions.

Implicit Types (st sm sf : State) (ev : Event) (l : Listener)
  (ls : list (string * Listener)).

Lemma retag_inj l1 l2 :
  l_impl l1 = ObjectMixin → l_impl l2 = ObjectMixin →
  retag l1 = retag l2 → l1 = l2.
Proof.
  destruct l1 as [i1 t1 s1 h1], l2 as [i2 t2 s2 h2]. simpl.
  intros -> -> [= -> -> ->]. done.
Qed.

Lemma filter_map_equiv {A B} (f : A → B) (P : B → Prop) (Q : A → Prop)
    `{∀ y, Decision (P y)} `{∀ x, Decision (Q x)} (xs : list A) :
  (∀ x, x ∈ xs → (P (f x) ↔ Q x)) →
  filter P (map f xs) = map f (filter Q xs).
Proof.
  induction xs as [|x xs IH]; intros Heq; [done|]. simpl.
  assert (filter P (map f xs) = map f (filter Q xs)) as IH'.
  { apply IH. intros y Hy. apply Heq. by right. }
  destruct (decide (Q x)) as [HQ|HQ].
  - rewrite !filter_cons_True; [|done|apply Heq; [by left|done]].
    simpl. by rewrite IH'.
  - rewrite !filter_cons_False; [done|done|].
    intros HP. apply HQ, Heq; [by left|done].
Qed.

Lemma removeEventListener_retag e old ls :
  l_impl old = ObjectMixin → (∀ x, x ∈ ls → l_impl x.2 = ObjectMixin) →
  removeEventListener e (retag old) (map retagEntry ls)
  = map retagEntry (removeEventListener e old ls).
Proof.
  intros Ho Hls. unfold removeEventListener. apply filter_map_equiv.
  intros [ty l] Hx. unfold retagEntry. simpl. split.
  - intros Hne [= -> ->]. by apply Hne.
  - intros Hne Heq. apply Hne.
    pose proof (f_equal fst Heq) as Hty. pose proof (f_equal snd Heq) as Hl.
    simpl in Hty, Hl. subst ty. f_equal.
    apply retag_inj; [apply (Hls _ Hx)|done|done].
Qed.

Lemma addEventListener_retag e dh ls :
  l_impl dh = ObjectMixin → (∀ x, x ∈ ls → l_impl x.2 = ObjectMixin) →
  addEventListener e (retag dh) (map retagEntry ls)
  = map retagEntry (addEventListener e dh ls).
Proof.
  intros Hd Hls. unfold addEventListener.
  assert ((e, retag dh) ∈ map retagEntry ls ↔ (e, dh) ∈ ls) as Hmem.
  { rewrite list_elem_of_In, in_map_iff. split.
    - intros ([ty l] & Heq & Hx%list_elem_of_In).
      pose proof (f_equal fst Heq) as Hty. pose proof (f_equal snd Heq) as Hl.
      simpl in Hty, Hl. subst ty.
      apply retag_inj in Hl; [by subst|apply (Hls _ Hx)|done].
    - intros Hx. exists (e, dh). split; [done|]. by apply list_elem_of_In. }
  case_bool_decide as E1; case_bool_decide as E2; try done.
  - by apply Hmem in E1.
  - by apply Hmem in E2.
  - by rewrite map_app.
Qed.

(** The loop of [undelegateAll] as one pass over the listener list. *)
Lemma detachAll_filter (entries : list (string * Listener)) ls :
  detachAll entries ls
  = filter (λ x, x ∉ map (λ kv, (eventTypeOfKey kv.1, kv.2)) entries) ls.
Proof.
  unfold detachAll. revert ls.
  induction entries as [|[k l] entries IH]; intros ls; simpl.
  - symmetry. apply filter_always. intros x. apply not_elem_of_nil.
  - rewrite IH. unfold removeEventListener. rewrite list_filter_filter.
    apply list_filter_iff. intros x. rewrite not_elem_of_cons. tauto.
Qed.

Lemma detachAll_retag (m : gmap string Listener) ls :
  (∀ k l, m !! k = Some l → l_impl l = ObjectMixin) →
  (∀ x, x ∈ ls → l_impl x.2 = ObjectMixin) →
  detachAll (map_to_list (retag <$> m)) (map retagEntry ls)
  = map retagEntry (detachAll (map_to_list m) ls).
Proof.
  intros Hm Hls. rewrite !detachAll_filter. apply filter_map_equiv.
  intros [ty l] Hx.
  assert ((ty, retag l) ∈ map (λ kv : string * Listener,
                                 (eventTypeOfKey kv.1, kv.2))
                              (map_to_list (retag <$> m))
          ↔ (ty, l) ∈ map (λ kv : string * Listener,
                             (eventTypeOfKey kv.1, kv.2)) (map_to_list m))
    as Hmem.
  { rewrite !list_elem_of_In, !in_map_iff. split.
    - intros ([k l'] & Heq & Hin).
      pose proof (f_equal fst Heq) as Hty. pose proof (f_equal snd Heq) as Hl.
      simpl in Hty, Hl. subst ty.
      apply list_elem_of_In, elem_of_map_to_list in Hin.
      rewrite lookup_fmap in Hin.
      destruct (m !! k) as [l0|] eqn:E0; [|done]. simpl in Hin.
      injection Hin as <-.
      apply retag_inj in Hl; [|by apply (Hm k)|apply (Hls _ Hx)]. subst l0.
      exists (k, l). split; [done|]. by apply list_elem_of_In, elem_of_map_to_list.
    - intros ([k l'] & [= <- ->] & Hin). simpl in *.
      apply list_elem_of_In, elem_of_map_to_list in Hin.
      exists (k, retag l). split; [done|].
      apply list_elem_of_In, elem_of_map_to_list.
      by rewrite lookup_fmap, Hin. }
  unfold retagEntry. simpl. by rewrite Hmem.
Qed.

Lemma useDelegation_Mirrors this root :
  Mirrors (useDelegation ObjectMixin this root)
          (useDelegation FunctionBased this root).
Proof.
  split; simpl; try done.
  intros x Hx. by apply elem_of_nil in Hx.
Qed.

Lemma step_Mirrors op sm sm' sf :
  Mirrors sm sf → step ObjectMixin op sm = Normal sm' →
  ∃ sf', step FunctionBased op sf = Normal sf' ∧ Mirrors sm' sf'.
Proof.
  intros [Hthis Hroot Hnext Hmap Hreg Hls Hatt Hsto] Hm.
  destruct (step_total FunctionBased op sf) as [sf' Hf]; [by intros _|].
  exists sf'. split; [done|].
  pose proof (step_hasMap _ _ _ _ Hf (λ _, Hmap) eq_refl) as Hmap'.
  destruct op as [e s h|e s|]; unfold step in Hm, Hf.
  - apply delegate_Normal in Hm as (Hmt & Hmr & Hmn & Hmreg & Hmls).
    apply delegate_Normal in Hf as (Hft & Hfr & Hfn & Hfreg & Hfls).
    set (dh := mkListener (next_closure sm) ObjectMixin s h) in *.
    assert (mkListener (next_closure sf) FunctionBased s h = retag dh) as Hdh.
    { unfold retag, dh. simpl. by rewrite Hnext. }
    rewrite Hdh in Hfreg, Hfls.
    assert (∀ x, x ∈ match registry sm !! key e s with
                     | Some old => removeEventListener e old (element_listeners sm)
                     | None => element_listeners sm
                     end → l_impl x.2 = ObjectMixin) as Hkept.
    { intros x Hx. apply Hatt. destruct (registry sm !! key e s); [|done].
      by apply elem_of_removeEventListener in Hx as [_ ?]. }
    split; try congruence.
    + unfold registry at 1 2. rewrite Hfreg, Hmreg. simpl.
      by rewrite Hreg, fmap_insert.
    + rewrite Hfls, Hmls, Hreg, lookup_fmap, Hls.
      destruct (registry sm !! key e s) as [old|] eqn:Eo; simpl.
      * rewrite removeEventListener_retag; [|by apply (Hsto (key e s))|done].
        by apply addEventListener_retag.
      * by apply addEventListener_retag.
    + rewrite Hmls. intros x [Hx| ->]%elem_of_addEventListener; [|done].
      by apply Hkept.
    + unfold registry at 1. rewrite Hmreg. simpl. intros k l.
      destruct (decide (key e s = k)) as [<-|Hne].
      * rewrite lookup_insert_eq. by intros [= <-].
      * rewrite lookup_insert_ne by done. apply Hsto.
  - apply undelegate_Normal in Hm as (Hmt & Hmr & Hmn & Hm).
    apply undelegate_Normal in Hf as (Hft & Hfr & Hfn & Hf).
    rewrite Hreg, lookup_fmap in Hf.
    destruct (registry sm !! key e s) as [old|] eqn:Eo; simpl in Hf.
    + destruct Hm as [Hmreg Hmls], Hf as [Hfreg Hfls].
      split; try congruence.
      * unfold registry at 1 2. rewrite Hfreg, Hmreg. simpl.
        by rewrite fmap_delete.
      * rewrite Hfls, Hmls, Hls.
        apply removeEventListener_retag; [by apply (Hsto (key e s))|done].
      * rewrite Hmls. intros x [_ Hx]%elem_of_removeEventListener. auto.
      * unfold registry at 1. rewrite Hmreg. simpl.
        intros k l [_ Hl]%lookup_delete_Some. eauto.
    + subst sm' sf'. by split.
  - apply undelegateAll_Normal in Hm as (Hmt & Hmr & Hmn & Hmreg & Hmls).
    apply undelegateAll_Normal in Hf as (Hft & Hfr & Hfn & Hfreg & Hfls).
    split; try congruence.
    + by rewrite Hfreg, Hmreg, fmap_empty.
    + rewrite Hfls, Hmls, Hreg, Hls. by apply detachAll_retag.
    + rewrite Hmls. intros x [Hx _]%detachAll_elem_of. auto.
    + rewrite Hmreg. intros k l. by rewrite lookup_empty.
Qed.

Lemma run_Mirrors ops sm sm' sf :
  Mirrors sm sf → run ObjectMixin ops sm = Normal sm' →
  ∃ sf', run FunctionBased ops sf = Normal sf' ∧ Mirrors sm' sf'.
Proof.
  revert sm sf. induction ops as [|op ops IH]; simpl; intros sm sf HM.
  - intros [= <-]. eauto.
  - destruct (step ObjectMixin op sm) as [sm1|] eqn:Hs; [|done].
    destruct (step_Mirrors op sm sm1 sf HM Hs) as (sf1 & -> & HM1).
    by apply IH.
Qed.

(** X14. Through the same operations, from the controllers the two versions
    start with, the function-based version does what the object mixin
    does: same keys in the registry, listeners attached for the same event
    types in the same order with the same selectors and handlers, and, for
    every event whose target is an element or absent, the same outcome of
    the dispatch. *)
Theorem function_version_mirrors_mixin ops this root sm :
  run ObjectMixin ops (useDelegation ObjectMixin this root) = Normal sm →
  ∃ sf,
    run FunctionBased ops (useDelegation FunctionBased this root) = Normal sf ∧
    dom (registry sf) = dom (registry sm) ∧
    map (λ x, (x.1, l_selector x.2, l_handler x.2)) (element_listeners sf)
    = map (λ x, (x.1, l_selector x.2, l_handler x.2)) (element_listeners sm) ∧
    ∀ matches doc node ev,
      (∀ o, ev_target ev = Some o → isElement doc o = true) →
      dispatchEvent matches doc sf node ev
      = dispatchEvent matches doc sm node ev.
Proof.
  intros Hrun.
  destruct (run_Mirrors ops _ sm _ (useDelegation_Mirrors this root) Hrun)
    as (sf & Hf & [Hthis Hroot Hnext Hmap Hreg Hls Hatt Hsto]).
  exists sf. split_and!; [done| | |].
  - rewrite Hreg. apply dom_fmap_L.
  - rewrite Hls, map_map. done.
  - intros matches doc node ev Hev.
    assert (invoked sf node ev = map retag (invoked sm node ev)) as Hinv.
    { unfold invoked, reachesRoot. rewrite Hroot, Hls.
      destruct (bool_decide (node = element sm)
                || ev_bubbles ev && contains (element sm) node); [|done].
      rewrite (filter_map_equiv retagEntry _ (λ x, x.1 = ev_type ev)) by done.
      by rewrite !map_map. }
    unfold dispatchEvent. rewrite Hinv, map_map.
    apply map_ext_in. intros l Hl%list_elem_of_In.
    apply elem_of_invoked in Hl as [_ Hl]. specialize (Hatt _ Hl). simpl in Hatt.
    unfold delegatedHandler. rewrite Hatt. simpl.
    unfold delegatedHandler_mixin, delegatedHandler_function, callIfContained.
    rewrite Hthis, Hroot.
    destruct (ev_target ev) as [o|] eqn:Eo; [|done].
    by rewrite (Hev o eq_refl).
Qed.

End Versions.

(** ** The further properties at the fixture *)

Section FurtherInstances.

Lemma undelegate_idempotent_witness :
  undelegate FunctionBased "click" ".btn"
    (ctrlAfter FunctionBased
       [Delegate "click" ".btn" 1; Undelegate "click" ".btn"])
  = Normal (ctrlAfter FunctionBased
              [Delegate "click" ".btn" 1; Undelegate "click" ".btn"]).
Proof.
  destruct (undelegate_idempotent FunctionBased "click" ".btn"
              (ctrlAfter FunctionBased [Delegate "click" ".btn" 1])
              (ctrlAfter FunctionBased
                 [Delegate "click" ".btn" 1; Undelegate "click" ".btn"]))
    as (_ & Hagain & _); [reflexivity|exact Hagain].
Defined.

Lemma delegate_undelegate_round_trip_witness :
  element_listeners
    (ctrlAfter ObjectMixin
       [Delegate "click" ".btn" 1; Delegate "input" "input" 2;
        Undelegate "input" "input"])
  = element_listeners (ctrlAfter ObjectMixin [Delegate "click" ".btn" 1]).
Proof.
  destruct (delegate_undelegate_round_trip ObjectMixin "input" "input" 2
              (ctrlAfter ObjectMixin [Delegate "click" ".btn" 1])
              (ctrlAfter ObjectMixin
                 [Delegate "click" ".btn" 1; Delegate "input" "input" 2])
              (ctrlAfter ObjectMixin
                 [Delegate "click" ".btn" 1; Delegate "input" "input" 2;
                  Undelegate "input" "input"]))
    as (_ & Hls & _); [|reflexivity..|exact Hls].
  apply (reach_step ObjectMixin (ctrl ObjectMixin) _ (Delegate "click" ".btn" 1));
    [apply reach_init|reflexivity].
Defined.

Lemma undelegateAll_idempotent_witness :
  undelegateAll ObjectMixin
    (ctrlAfter ObjectMixin [Delegate "click" ".btn" 1; UndelegateAll])
  = Normal (ctrlAfter ObjectMixin [Delegate "click" ".btn" 1; UndelegateAll]).
Proof.
  destruct (undelegateAll_idempotent ObjectMixin
              (ctrlAfter ObjectMixin [Delegate "click" ".btn" 1])
              (ctrlAfter ObjectMixin [Delegate "click" ".btn" 1; UndelegateAll]))
    as (_ & _ & Hagain & _); [reflexivity|exact Hagain].
Defined.

Lemma undelegate_detaches_registration_witness :
  mkListener 0 FunctionBased ".btn" 1
    ∉ invoked (ctrlAfter FunctionBased
                 [Delegate "click" ".btn" 1; Delegate "click" ".nested" 2;
                  Undelegate "click" ".btn"; Delegate "click" ".btn" 3])
              saveBtn (click 0 (Some saveBtn)).
Proof.
  destruct (undelegate_detaches_registration FunctionBased
              (ctrl FunctionBased)
              (ctrlAfter FunctionBased [Delegate "click" ".btn" 1])
              (ctrlAfter FunctionBased
                 [Delegate "click" ".btn" 1; Delegate "click" ".nested" 2])
              (ctrlAfter FunctionBased
                 [Delegate "click" ".btn" 1; Delegate "click" ".nested" 2;
                  Undelegate "click" ".btn"])
              "click" ".btn" 1 [Delegate "click" ".nested" 2])
    as (_ & _ & _ & _ & Hnever); [apply reach_init|reflexivity..|].
  apply (Hnever [Delegate "click" ".btn" 3]). reflexivity.
Defined.

Lemma teardown_silences_dispatch_witness :
  dispatchEvent simpleMatches page
    (ctrlAfter FunctionBased
       [Delegate "click" ".btn" 1; Delegate "mouseover" ".btn" 2;
        Delegate "change" "input" 3; UndelegateAll])
    saveBtn (click 0 (Some saveBtn))
  = [].
Proof.
  destruct (teardown_silences_dispatch simpleMatches page FunctionBased
              [Delegate "click" ".btn" 1; Delegate "mouseover" ".btn" 2;
               Delegate "change" "input" 3]
              7 rootRef
              (ctrlAfter FunctionBased
                 [Delegate "click" ".btn" 1; Delegate "mouseover" ".btn" 2;
                  Delegate "change" "input" 3])
              (ctrlAfter FunctionBased
                 [Delegate "click" ".btn" 1; Delegate "mouseover" ".btn" 2;
                  Delegate "change" "input" 3; UndelegateAll]))
    as (_ & _ & Hsilent); [reflexivity..|].
  apply Hsilent.
Defined.

Lemma disconnect_tears_down_first_witness :
  ∃ st', disconnect Normal
           (ctrlAfter FunctionBased [Delegate "click" ".btn" 1]) = Normal st' ∧
         element_listeners st' = [].
Proof.
  destruct (proj1 (disconnect_tears_down_first Normal
                     (ctrlAfter FunctionBased [Delegate "click" ".btn" 1]))
              [Delegate "click" ".btn" 1] 7 rootRef eq_refl eq_refl)
    as (st' & Hd & _ & _ & _ & Hnil).
  exists st'. split; [exact Hd|exact Hnil].
Defined.

Lemma dispatch_calls_are_sound_witness :
  ∃ l o, (ev_type (click 0 (Some nestedSpan)), l)
           ∈ element_listeners
               (ctrlAfter ObjectMixin [Delegate "click" ".nested" 1]) ∧
         closest simpleMatches page (l_selector l) o = Some nestedDiv.
Proof.
  destruct (dispatch_calls_are_sound simpleMatches page
              (ctrlAfter ObjectMixin [Delegate "click" ".nested" 1])
              nestedSpan (click 0 (Some nestedSpan))
              (mkCall 1 7 (click 0 (Some nestedSpan)) nestedDiv))
    as (l & o & _ & Hl & _ & _ & _ & _ & Hcl & _).
  - vm_compute. left.
  - exists l, o. split; [exact Hl|exact Hcl].
Defined.

Lemma other_event_types_unaffected_witness :
  dispatchEvent simpleMatches page
    (ctrlAfter FunctionBased
       [Delegate "click" ".btn" 1; Delegate "mouseover" ".btn" 2])
    saveBtn (click 0 (Some saveBtn))
  = dispatchEvent simpleMatches page
      (ctrlAfter FunctionBased [Delegate "click" ".btn" 1])
      saveBtn (click 0 (Some saveBtn)).
Proof.
  destruct (other_event_types_unaffected simpleMatches page FunctionBased
              (Delegate "mouseover" ".btn" 2) "mouseover"
              (ctrlAfter FunctionBased [Delegate "click" ".btn" 1])
              (ctrlAfter FunctionBased
                 [Delegate "click" ".btn" 1; Delegate "mouseover" ".btn" 2])
              saveBtn (click 0 (Some saveBtn)))
    as [_ Hsame]; [reflexivity|reflexivity|discriminate|exact Hsame].
Defined.

Lemma delegate_runs_last_witness :
  invoked (ctrlAfter ObjectMixin
             [Delegate "click" ".btn" 1; Delegate "click" ".nested" 2;
              Delegate "click" ".btn" 3])
          saveBtn (click 0 (Some saveBtn))
  = [mkListener 1 ObjectMixin ".nested" 2; mkListener 2 ObjectMixin ".btn" 3].
Proof.
  rewrite (delegate_runs_last ObjectMixin "click" ".btn" 3
             (ctrlAfter ObjectMixin
                [Delegate "click" ".btn" 1; Delegate "click" ".nested" 2])
             (ctrlAfter ObjectMixin
                [Delegate "click" ".btn" 1; Delegate "click" ".nested" 2;
                 Delegate "click" ".btn" 3])
             saveBtn (click 0 (Some saveBtn))); [reflexivity| |reflexivity..].
  eapply (Reachable_run ObjectMixin
            [Delegate "click" ".btn" 1; Delegate "click" ".nested" 2]);
    [apply reach_init|reflexivity].
Defined.

Lemma registry_size_is_listener_count_witness :
  size (registry (ctrlAfter FunctionBased
                    [Delegate "click" ".btn" 1; Delegate "click" ".btn" 2;
                     Delegate "input" "input:checked" 3;
                     Undelegate "change" "select"]))
  = length (element_listeners
              (ctrlAfter FunctionBased
                 [Delegate "click" ".btn" 1; Delegate "click" ".btn" 2;
                  Delegate "input" "input:checked" 3;
                  Undelegate "change" "select"])).
Proof.
  destruct (registry_size_is_listener_count FunctionBased
              [Delegate "click" ".btn" 1; Delegate "click" ".btn" 2;
               Delegate "input" "input:checked" 3;
               Undelegate "change" "select"]
              7 rootRef
              (ctrlAfter FunctionBased
                 [Delegate "click" ".btn" 1; Delegate "click" ".btn" 2;
                  Delegate "input" "input:checked" 3;
                  Undelegate "change" "select"]))
    as [_ Hsize]; [reflexivity..|exact Hsize].
Defined.

(** An entry under a key with two colons is attached all the same. *)
Lemma registry_entries_are_attached_witness :
  ∃ ty, "custom:event:.btn" = key ty ".btn" ∧
        (ty, mkListener 0 FunctionBased ".btn" 1)
          ∈ element_listeners
              (ctrlAfter FunctionBased [Delegate "custom:event" ".btn" 1]).
Proof.
  destruct (registry_entries_are_attached FunctionBased
              (ctrlAfter FunctionBased [Delegate "custom:event" ".btn" 1])
              "custom:event:.btn" (mkListener 0 FunctionBased ".btn" 1))
    as (ty & Hk & Hin & _).
  - apply (reach_step FunctionBased (ctrl FunctionBased) _
             (Delegate "custom:event" ".btn" 1)); [apply reach_init|reflexivity].
  - reflexivity.
  - exists ty. split; [exact Hk|exact Hin].
Defined.

Lemma key_decodes_iff_colon_free_witness :
  eventTypeOfKey (key "click" "input:checked") = "click".
Proof.
  apply (proj1 (key_decodes_iff_colon_free "click" "input:checked")).
  reflexivity.
Defined.

Lemma function_version_mirrors_mixin_witness :
  ∃ sf, run FunctionBased
          [Delegate "click" ".btn" 1; Delegate "custom:event" ".btn" 2;
           UndelegateAll; Delegate "click" ".nested" 3]
          (useDelegation FunctionBased 7 rootRef) = Normal sf ∧
        dom (registry sf)
        = dom (registry (ctrlAfter ObjectMixin
                           [Delegate "click" ".btn" 1;
                            Delegate "custom:event" ".btn" 2;
                            UndelegateAll; Delegate "click" ".nested" 3])).
Proof.
  destruct (function_version_mirrors_mixin
              [Delegate "click" ".btn" 1; Delegate "custom:event" ".btn" 2;
               UndelegateAll; Delegate "click" ".nested" 3]
              7 rootRef
              (ctrlAfter ObjectMixin
                 [Delegate "click" ".btn" 1; Delegate "custom:event" ".btn" 2;
                  UndelegateAll; Delegate "click" ".nested" 3]))
    as (sf & Hrun & Hdom & _); [reflexivity|].
  exists sf. split; [exact Hrun|exact Hdom].
Defined.

End FurtherInstances.

(** ** Handler calls *)

Section HandlerCalls.

Variable matches : Node → NodeRef → string → bool.
Variable doc : Node.

Implicit Types (st : State) (impl : Impl) (ev : Event) (l : Listener).

Lemma NoDup_all_equal_singleton {A} (xs : list A) (a : A) :
  NoDup xs → a ∈ xs → (∀ x, x ∈ xs → x = a) → xs = [a].
Proof.
  intros Hnd Ha Hall. destruct xs as [|x xs]; [by apply elem_of_nil in Ha|].
  rewrite (Hall x) by (by left). f_equal.
  destruct xs as [|y xs]; [done|]. exfalso.
  apply NoDup_cons in Hnd as [Hx _]. apply Hx.
  rewrite (Hall x) by (by left). rewrite <- (Hall y) by (right; by left).
  by left.
Qed.

Lemma callsOf_map_nil (fire : Listener → Outcome) (h : Handler)
    (xs : list Listener) :
  (∀ l c, l ∈ xs → fire l = Invoked c → call_handler c ≠ h) →
  callsOf h (map fire xs) = [].
Proof.
  induction xs as [|x xs IH]; intros Hall; [done|]. simpl.
  assert (callsOf h (map fire xs) = []) as Hrest.
  { apply IH. intros l c Hl. apply Hall. by right. }
  destruct (fire x) as [|c|err] eqn:Ex; try done.
  rewrite bool_decide_eq_false_2; [done|].
  apply (Hall x c); [by left|done].
Qed.

Lemma callsOf_map_unique (fire : Listener → Outcome) (h : Handler)
    (xs : list Listener) l (c : Call) :
  NoDup xs → l ∈ xs → fire l = Invoked c → call_handler c = h →
  (∀ l' c', l' ∈ xs → fire l' = Invoked c' → call_handler c' = h → l' = l) →
  callsOf h (map fire xs) = [c].
Proof.
  induction xs as [|x xs IH]; intros Hnd Hl Hc Hh Huniq.
  { by apply elem_of_nil in Hl. }
  apply NoDup_cons in Hnd as [Hx Hnd]. simpl.
  destruct (decide (x = l)) as [->|Hxl].
  - rewrite Hc, bool_decide_eq_true_2 by done. f_equal.
    apply callsOf_map_nil. intros l' c' Hl' Hc' Hh'.
    apply Hx. rewrite <- (Huniq l' c'); [done|by right|done|done].
  - assert (l ∈ xs) as Hl'.
    { apply elem_of_cons in Hl as [->|?]; done. }
    assert (callsOf h (map fire xs) = [c]) as Hrest.
    { apply IH; try done. intros l' c' Hin. apply Huniq. by right. }
    destruct (fire x) as [|c'|err] eqn:Ex; try done.
    rewrite bool_decide_eq_false_2; [done|].
    intros Hh'. apply Hxl. apply (Huniq x c'); [by left|done|done].
Qed.

Lemma run_from_useDelegation impl ops this root st :
  run impl ops (useDelegation impl this root) = Normal st →
  this_id st = this ∧ element st = root ∧ Reachable impl st.
Proof.
  intros Hrun.
  destruct (run_next_closure impl ops _ st Hrun) as (Ht & Hr & _).
  split_and!; [done|done|].
  eapply Reachable_run; [apply reach_init|exact Hrun].
Qed.

(** A handler that no entry of a tight registry holds is not called. *)
Lemma Tight_handler_absent st (h : Handler) node ev (c : Call) :
  Tight st →
  (∀ k l, registry st !! k = Some l → l_handler l ≠ h) →
  Invoked c ∈ dispatchEvent matches doc st node ev → call_handler c ≠ h.
Proof.
  intros HT Habs Hin. unfold dispatchEvent in Hin.
  apply list_elem_of_In, in_map_iff in Hin as (l & Hcall & Hl).
  apply list_elem_of_In, elem_of_invoked in Hl as [_ Hatt].
  destruct (tight_attached _ HT _ Hatt) as [_ Hreg].
  apply delegatedHandler_Invoked_inv in Hcall as (o & t & _ & _ & _ & ->).
  simpl. by apply (Habs _ _ Hreg).
Qed.

Lemma step_handler_absent impl op st st' (h : Handler) :
  opHandler op ≠ Some h → step impl op st = Normal st' →
  (∀ k l, registry st !! k = Some l → l_handler l ≠ h) →
  (∀ k l, registry st' !! k = Some l → l_handler l ≠ h).
Proof.
  intros Hop Hs Habs k l. destruct op as [e s h'|e s|]; simpl in Hs, Hop.
  - apply delegate_Normal in Hs as (_ & _ & _ & Hreg & _).
    unfold registry at 1. rewrite Hreg. simpl.
    destruct (decide (key e s = k)) as [<-|Hne].
    + rewrite lookup_insert_eq. intros [= <-]. simpl. congruence.
    + rewrite lookup_insert_ne by done. apply Habs.
  - apply undelegate_Normal in Hs as (_ & _ & _ & Hs).
    destruct (registry st !! key e s); [|subst; apply Habs].
    destruct Hs as [Hreg _]. unfold registry at 1. rewrite Hreg. simpl.
    intros [_ Hl]%lookup_delete_Some. by apply (Habs k).
  - apply undelegateAll_Normal in Hs as (_ & _ & _ & -> & _).
    by rewrite lookup_empty.
Qed.

Lemma run_handler_absent impl ops st st' (h : Handler) :
  (∀ op, op ∈ ops → opHandler op ≠ Some h) →
  run impl ops st = Normal st' →
  (∀ k l, registry st !! k = Some l → l_handler l ≠ h) →
  (∀ k l, registry st' !! k = Some l → l_handler l ≠ h).
Proof.
  revert st. induction ops as [|op ops IH]; simpl; intros st Hops.
  - by intros [= <-].
  - destruct (step impl op st) as [st1|] eqn:Hs; [|done].
    intros Hrun Habs. apply (IH st1); [|done|].
    + intros op' Hin. apply Hops. by right.
    + eapply step_handler_absent; [|exact Hs|exact Habs].
      apply Hops. by left.
Qed.

(** X15. After operations on colon-free event types, for a pair that is
    registered: exactly one listener is attached for the pair, the entry's
    closure; an event of the pair's type that reaches the root, whose
    target is an element inside the root with a matching element of the
    root on its ancestor chain, runs it once, and it calls the handler with
    the controller, the event and the nearest match.  When no other pair
    has the same handler, that is the one call of the handler in the whole
    dispatch. *)
Theorem registered_pair_calls_handler_once impl ops this root st e s l
    node ev o a :
  forallb colonFreeOp ops = true →
  run impl ops (useDelegation impl this root) = Normal st →
  colonFree e = true →
  registry st !! key e s = Some l →
  ev_type ev = e → ev_target ev = Some o →
  reachesRoot st node ev = true →
  isElement doc o = true →
  contains a o = true → contains root a = true →
  isElement doc a = true → matches doc a s = true →
  ∃ t,
    closest matches doc s o = Some t ∧ contains root t = true ∧
    listenersForPair e s st = [(e, l)] ∧
    filter (λ l', l_selector l' = s) (invoked st node ev) = [l] ∧
    delegatedHandler matches doc st l ev =
      Invoked (mkCall (l_handler l) this ev t) ∧
    ((∀ k' l', registry st !! k' = Some l' →
               l_handler l' = l_handler l → k' = key e s) →
     callsOf (l_handler l) (dispatchEvent matches doc st node ev)
     = [mkCall (l_handler l) this ev t]).
Proof.
  intros Hops Hrun He Hreg Hty Ht Hr Ho Hao Hra Hea Hma.
  destruct (run_from_useDelegation impl ops this root st Hrun)
    as (Hthis & Hroot & Hreach).
  assert (Tight st) as HT.
  { eapply run_Tight; [exact Hops|exact Hrun|apply useDelegation_Tight]. }
  pose proof (sound_nodup _ _ (Reachable_Sound _ _ Hreach)) as Hnd.
  destruct (Tight_entry st e s l HT He Hreg) as [Hsel Hatt].
  destruct (closest_within_root matches doc s root o a Hao Hra Hea Hma)
    as (t & Hcl & Hct).
  assert (delegatedHandler matches doc st l ev =
          Invoked (mkCall (l_handler l) this ev t)) as Hcall.
  { rewrite delegatedHandler_matchedTarget. unfold matchedTarget.
    rewrite Ht, Ho, Hsel. simpl. rewrite Hcl. simpl.
    by rewrite Hroot, Hct, Hthis. }
  assert (l ∈ invoked st node ev) as Hin.
  { apply elem_of_invoked. split; [done|]. by rewrite Hty. }
  assert (∀ l', l' ∈ invoked st node ev →
                registry st !! key e (l_selector l') = Some l') as Hent.
  { intros l' [_ Hl']%elem_of_invoked. rewrite Hty in Hl'.
    by destruct (tight_attached _ HT _ Hl'). }
  exists t. split_and!; try done.
  - apply NoDup_all_equal_singleton.
    + by apply NoDup_filter.
    + apply list_elem_of_filter. done.
    + intros [ty l'] [[Hty' Hs'] Hx]%list_elem_of_filter. simpl in *. subst ty.
      destruct (tight_attached _ HT _ Hx) as [_ Hr']. unfold keyOf in Hr'.
      simpl in Hr'. rewrite Hs' in Hr'. congruence.
  - apply NoDup_all_equal_singleton.
    + by apply NoDup_filter, NoDup_invoked.
    + apply list_elem_of_filter. done.
    + intros l' [Hs' Hl']%list_elem_of_filter.
      specialize (Hent l' Hl'). rewrite Hs' in Hent. congruence.
  - intros Huniq. unfold dispatchEvent.
    apply (callsOf_map_unique _ _ _ l); try done.
    + by apply NoDup_invoked.
    + intros l' c' Hl' Hc' Hh'.
      apply delegatedHandler_Invoked_inv in Hc' as (o' & t' & _ & _ & _ & ->).
      simpl in Hh'. pose proof (Hent l' Hl') as Hreg'.
      pose proof (Huniq _ _ Hreg' Hh') as Hk. rewrite Hk in Hreg'. congruence.
Qed.

(** X16. After operations on colon-free event types, calling [delegate]
    again for a registered pair leaves exactly one listener attached for
    the pair, the new closure, with the registry at its size; the old
    closure is never run again.  When the old handler was registered for
    this pair only and differs from the new one, no event calls it after
    the replacement, through any later operations on colon-free event
    types that do not register it again; the new closure calls the new
    handler on a match. *)
Theorem redelegate_silences_old_handler impl ops this root st st' e s h2 old :
  forallb colonFreeOp ops = true →
  run impl ops (useDelegation impl this root) = Normal st →
  colonFree e = true →
  registry st !! key e s = Some old →
  delegate impl e s h2 st = Normal st' →
  let new := mkListener (next_closure st) impl s h2 in
  listenersForPair e s st = [(e, old)] ∧
  listenersForPair e s st' = [(e, new)] ∧
  registry st' = <[key e s := new]> (registry st) ∧
  size (registry st') = size (registry st) ∧
  (∀ ty, (ty, old) ∉ element_listeners st') ∧
  (∀ later st'' node ev, run impl later st' = Normal st'' →
                         old ∉ invoked st'' node ev) ∧
  (h2 ≠ l_handler old →
   (∀ k l, registry st !! k = Some l →
           l_handler l = l_handler old → k = key e s) →
   ∀ later st'' node ev c,
     forallb colonFreeOp later = true →
     (∀ op, op ∈ later → opHandler op ≠ Some (l_handler old)) →
     run impl later st' = Normal st'' →
     Invoked c ∈ dispatchEvent matches doc st'' node ev →
     call_handler c ≠ l_handler old) ∧
  (∀ ev o t, ev_target ev = Some o → isElement doc o = true →
             closest matches doc s o = Some t → contains root t = true →
             delegatedHandler matches doc st' new ev =
               Invoked (mkCall h2 this ev t)).
Proof.
  intros Hops Hrun He Hreg Hd new.
  destruct (run_from_useDelegation impl ops this root st Hrun)
    as (Hthis & Hroot & Hreach).
  assert (Tight st) as HT.
  { eapply run_Tight; [exact Hops|exact Hrun|apply useDelegation_Tight]. }
  pose proof (Reachable_Sound _ _ Hreach) as HS.
  assert (Tight st') as HT'.
  { by apply (step_Tight impl (Delegate e s h2) st st'). }
  assert (Sound impl st') as HS'.
  { by apply (step_Sound impl (Delegate e s h2) st st'). }
  pose proof (delegate_Normal _ _ _ _ _ _ Hd)
    as (Hthis' & Hroot' & Hnext' & Hreg' & Hls'). fold new in Hreg', Hls'.
  assert (registry st' = <[key e s := new]> (registry st)) as Hr'.
  { unfold registry at 1. by rewrite Hreg'. }
  assert (∀ st0 l0, Tight st0 → NoDup (element_listeners st0) →
                    registry st0 !! key e s = Some l0 →
                    listenersForPair e s st0 = [(e, l0)]) as Hpair.
  { intros st0 l0 HT0 Hnd0 Hl0.
    destruct (Tight_entry st0 e s l0 HT0 He Hl0) as [Hsel0 Hatt0].
    apply NoDup_all_equal_singleton.
    - by apply NoDup_filter.
    - apply list_elem_of_filter. done.
    - intros [ty l'] [[Hty' Hs'] Hx]%list_elem_of_filter. simpl in *. subst ty.
      destruct (tight_attached _ HT0 _ Hx) as [_ Hrx]. unfold keyOf in Hrx.
      simpl in Hrx. rewrite Hs' in Hrx. congruence. }
  assert (old ≠ new) as Hne.
  { intros Heq. pose proof (sound_stored _ _ HS _ _ Hreg) as Hlt.
    rewrite Heq in Hlt. simpl in Hlt. lia. }
  assert (∀ ty, (ty, old) ∉ element_listeners st') as Hgone.
  { intros ty Hin. destruct (tight_attached _ HT' _ Hin) as [Hc Hx].
    unfold keyOf in Hx. simpl in Hx. rewrite Hr' in Hx.
    destruct (Tight_entry st e s old HT He Hreg) as [Hsel _].
    destruct (decide (key e s = key ty (l_selector old))) as [Hk|Hk].
    - rewrite <- Hk, lookup_insert_eq in Hx. congruence.
    - rewrite lookup_insert_ne in Hx by done.
      apply Hk. by apply (sound_inj _ _ HS _ _ old). }
  split_and!.
  - apply Hpair; [done|apply (sound_nodup _ _ HS)|done].
  - apply Hpair; [done|apply (sound_nodup _ _ HS')|].
    rewrite Hr'. apply lookup_insert_eq.
  - done.
  - rewrite Hr'. apply map_size_insert_Some. eauto.
  - done.
  - intros later st'' node ev Hlater [_ Hin]%elem_of_invoked.
    assert (detached old st') as Hdet.
    { split; [|intros ty Hty; by apply (Hgone ty)].
      pose proof (sound_stored _ _ HS _ _ Hreg). lia. }
    destruct (run_attachedOnlyFor impl later _ old st' st'' Hlater Hdet)
      as [_ Hnot].
    by apply (Hnot (ev_type ev)).
  - intros Hh Huniq later st'' node ev c Hcf Hnoreg Hlater.
    apply Tight_handler_absent.
    + by apply (run_Tight impl later st' st'').
    + eapply run_handler_absent; [exact Hnoreg|exact Hlater|].
      intros k l. rewrite Hr'.
      destruct (decide (key e s = k)) as [<-|Hk].
      * rewrite lookup_insert_eq. intros [= <-]. done.
      * rewrite lookup_insert_ne by done. intros Hl Hhl.
        apply Hk. symmetry. by apply (Huniq k l).
  - intros ev o t Ho Heo Hcl Hct.
    rewrite delegatedHandler_matchedTarget. unfold matchedTarget.
    rewrite Ho, Heo. simpl. rewrite Hcl. simpl.
    by rewrite Hroot', Hroot, Hct, Hthis', Hthis.
Qed.

End HandlerCalls.

(** ** Where the calls of a handler depart from the contract *)

Section CallDepartures.

Implicit Types (impl : Impl).

(** C1. One registered pair, one matching event, two calls of the handler:
    after [delegate], [undelegateAll] and the same [delegate] again for an
    event type with a colon, the registry has the pair's one entry, but the
    listener that the teardown failed to detach is still attached beside
    the new one, and both call the handler. *)
Theorem handler_called_twice_after_teardown impl :
  let ev := mkEvent 0 "custom:event" (Some saveBtn) true in
  let c := mkCall 1 7 ev saveBtn in
  ∃ st, run impl [Delegate "custom:event" ".btn" 1; UndelegateAll;
                  Delegate "custom:event" ".btn" 1] (ctrl impl) = Normal st ∧
        map_to_list (registry st)
        = [(key "custom:event" ".btn", mkListener 1 impl ".btn" 1)] ∧
        element_listeners st
        = [("custom:event", mkListener 0 impl ".btn" 1);
           ("custom:event", mkListener 1 impl ".btn" 1)] ∧
        isElement page saveBtn = true ∧
        contains (element st) saveBtn = true ∧
        simpleMatches page saveBtn ".btn" = true ∧
        reachesRoot st saveBtn ev = true ∧
        dispatchEvent simpleMatches page st saveBtn ev
        = [Invoked c; Invoked c] ∧
        callsOf 1 (dispatchEvent simpleMatches page st saveBtn ev) = [c; c].
Proof. destruct impl; eexists; split_and!; reflexivity. Qed.

(** C3. Calling [delegate] again for a pair does not always detach the
    listener attached for it before.  With a colliding pair registered in
    between, the entry found under the key is the other pair's closure, the
    removal names the wrong event type, and the first listener stays
    attached and runs for every click.  And a replaced handler is still
    called through a listener that an earlier teardown left behind. *)
Theorem redelegate_leaves_earlier_listener impl :
  let first := mkListener 0 impl "a:hover" 1 in
  let other := mkListener 1 impl "hover" 2 in
  let third := mkListener 2 impl "a:hover" 3 in
  let ev := mkEvent 0 "custom:event" (Some saveBtn) true in
  (∃ st, run impl [Delegate "click" "a:hover" 1; Delegate "click:a" "hover" 2;
                   Delegate "click" "a:hover" 3] (ctrl impl) = Normal st ∧
         map_to_list (registry st) = [(key "click" "a:hover", third)] ∧
         element_listeners st
         = [("click", first); ("click:a", other); ("click", third)] ∧
         invoked st saveBtn (click 0 (Some saveBtn)) = [first; third]) ∧
  (∃ st1 st2,
     run impl [Delegate "custom:event" ".btn" 1; UndelegateAll;
               Delegate "custom:event" ".btn" 1] (ctrl impl) = Normal st1 ∧
     registry st1 !! key "custom:event" ".btn"
     = Some (mkListener 1 impl ".btn" 1) ∧
     delegate impl "custom:event" ".btn" 2 st1 = Normal st2 ∧
     map_to_list (registry st2)
     = [(key "custom:event" ".btn", mkListener 2 impl ".btn" 2)] ∧
     dispatchEvent simpleMatches page st2 saveBtn ev
     = [Invoked (mkCall 1 7 ev saveBtn); Invoked (mkCall 2 7 ev saveBtn)]).
Proof.
  destruct impl; split; [eexists|do 2 eexists|eexists|do 2 eexists];
    split_and!; reflexivity.
Qed.

End CallDepartures.

Section CallInstances.

Lemma fixture_entries (k : string) (l : Listener) :
  (k, l) ∈ map_to_list
             (registry (ctrlAfter ObjectMixin
                          [Delegate "click" ".btn" 1;
                           Delegate "click" ".nested" 2])) →
  (k, l) ∈ [("click:.nested", mkListener 1 ObjectMixin ".nested" 2);
            ("click:.btn", mkListener 0 ObjectMixin ".btn" 1)].
Proof.
  intros Hl.
  assert (map_to_list
            (registry (ctrlAfter ObjectMixin
                         [Delegate "click" ".btn" 1;
                          Delegate "click" ".nested" 2]))
          = [("click:.nested", mkListener 1 ObjectMixin ".nested" 2);
             ("click:.btn", mkListener 0 ObjectMixin ".btn" 1)]) as Hm
    by reflexivity.
  rewrite Hm in Hl. exact Hl.
Qed.

Lemma fixture_handler_two (k : string) (l : Listener) :
  (k, l) ∈ [("click:.nested", mkListener 1 ObjectMixin ".nested" 2);
            ("click:.btn", mkListener 0 ObjectMixin ".btn" 1)] →
  l_handler l = 2 → k = key "click" ".nested".
Proof.
  intros Hl Hh. apply elem_of_cons in Hl as [Hl|Hl].
  - by injection Hl as -> ->.
  - apply list_elem_of_singleton in Hl. injection Hl as -> ->.
    simpl in Hh. discriminate.
Qed.

Lemma registered_pair_calls_handler_once_witness :
  callsOf 2
    (dispatchEvent simpleMatches page
       (ctrlAfter ObjectMixin
          [Delegate "click" ".btn" 1; Delegate "click" ".nested" 2])
       nestedSpan (click 0 (Some nestedSpan)))
  = [mkCall 2 7 (click 0 (Some nestedSpan)) nestedDiv].
Proof.
  destruct (registered_pair_calls_handler_once simpleMatches page ObjectMixin
              [Delegate "click" ".btn" 1; Delegate "click" ".nested" 2]
              7 rootRef
              (ctrlAfter ObjectMixin
                 [Delegate "click" ".btn" 1; Delegate "click" ".nested" 2])
              "click" ".nested" (mkListener 1 ObjectMixin ".nested" 2)
              nestedSpan (click 0 (Some nestedSpan)) nestedSpan nestedDiv)
    as (t & Hcl & _ & _ & _ & _ & Honce); [reflexivity..|].
  vm_compute in Hcl. injection Hcl as <-. apply Honce.
  intros k' l' Hl' Hh.
  apply (fixture_handler_two k' l'); [|exact Hh].
  apply fixture_entries. apply elem_of_map_to_list. exact Hl'.
Defined.

Lemma redelegate_silences_old_handler_witness :
  listenersForPair "click" ".btn"
    (ctrlAfter FunctionBased
       [Delegate "click" ".btn" 1; Delegate "click" ".nested" 2;
        Delegate "click" ".btn" 3])
  = [("click", mkListener 2 FunctionBased ".btn" 3)].
Proof.
  destruct (redelegate_silences_old_handler simpleMatches page FunctionBased
              [Delegate "click" ".btn" 1; Delegate "click" ".nested" 2]
              7 rootRef
              (ctrlAfter FunctionBased
                 [Delegate "click" ".btn" 1; Delegate "click" ".nested" 2])
              (ctrlAfter FunctionBased
                 [Delegate "click" ".btn" 1; Delegate "click" ".nested" 2;
                  Delegate "click" ".btn" 3])
              "click" ".btn" 3 (mkListener 0 FunctionBased ".btn" 1))
    as (_ & Hnew & _); [reflexivity..|exact Hnew].
Defined.

End CallInstances.
